(** * LazyMobXCache: a lazy, batching, de-duplicating read-through cache

    Shallow embedding of [src/shared/lib/LazyMobXCache.ts] and the properties
    its design document states about it.

    The cache stores plain JavaScript objects in an immutable object that is
    replaced by [Immutable#merge(toMerge, {deep: true})] of the
    seamless-immutable package.  Both the objects and that merge are modelled
    here on a small universe of JavaScript values. *)

From Stdlib Require Import Ascii String List ZArith NArith Bool Lia Permutation.
From stdpp Require Import base option list sorting gmap strings.
Import ListNotations.

Local Open Scope string_scope.
Local Open Scope list_scope.

(** ** JavaScript values *)

Module JS.

(** The values that flow through the cache: data, metadata and cache entries.
    An object is the list of its own enumerable properties; [set_own] keeps
    the property names of an object distinct.  The values are data: none of
    them is a function.  What an object inherits is not data either; a read
    that reaches it is described by [read] below. *)
#[local] Unset Elimination Schemes.
Inductive value : Type :=
| VUndefined
| VNull
| VBool (b : bool)
| VNum (n : Z)
| VStr (s : string)
| VArr (elts : list value)
| VObj (props : list (string * value)).
#[local] Set Elimination Schemes.

Definition obj : Type := list (string * value).

Definition keys (o : obj) : list string := map fst o.

(** [o.hasOwnProperty(key)] and the own property itself. *)
Fixpoint get_own (key : string) (o : obj) : option value :=
  match o with
  | [] => None
  | (k, v) :: o' => if String.eqb k key then Some v else get_own key o'
  end.

Definition hasOwnProperty (o : obj) (key : string) : bool :=
  match get_own key o with Some _ => true | None => false end.

(** [o[key]]: a property that is not there reads as [undefined]. *)
Definition prop (o : obj) (key : string) : value :=
  default VUndefined (get_own key o).

(** [o[key] = v]: an existing property keeps its place, a new one goes last. *)
Fixpoint set_own (key : string) (v : value) (o : obj) : obj :=
  match o with
  | [] => [(key, v)]
  | (k, w) :: o' =>
      if String.eqb k key then (k, v) :: o' else (k, w) :: set_own key v o'
  end.

(** Truthiness, as tested by [!x] and [x || y]. *)
Definition truthy (v : value) : bool :=
  match v with
  | VUndefined | VNull => false
  | VBool b => b
  | VNum n => negb (n =? 0)%Z
  | VStr s => negb (String.eqb s EmptyString)
  | VArr _ | VObj _ => true
  end.

(** seamless-immutable's [isMergableObject]: a non-null object that is not an
    array (and not a [Date], which the value universe does not contain). *)
Definition isMergableObject (v : value) : bool :=
  match v with VObj _ => true | _ => false end.

(** What [for (const x of v)] iterates over; [None] is the [TypeError] for a
    value that is not iterable. *)
Definition iterate (v : value) : option (list value) :=
  match v with
  | VArr elts => Some elts
  | VStr s => Some (map (fun c => VStr (String c EmptyString)) (list_ascii_of_string s))
  | _ => None
  end.

(** *** [Immutable#merge] with [{deep: true}]

    [updateCache] replaces the snapshot by
    [this._cache.merge(toMerge, {deep: true})].  seamless-immutable copies the
    receiver and then, for every own key of [other], stores a value under
    that key ([addToResult]):

      - [Immutable.merge(currentValue, immutableValue, config)] when [deep]
        is set and both the value the receiver has under the key and the new
        one are mergable objects,
      - the new value otherwise, which is also what a key gets that the
        receiver does not have.

    [newValue] is the value that is stored; [merge] is the merge of two
    objects.  The library's [isEqual] tests only decide whether the receiver
    can be returned as it is, they do not change the result; its custom
    [merger] and [mode] options are not used by the cache. *)
Fixpoint newValue (currentValue immutableValue : value) {struct immutableValue} : value :=
  match currentValue, immutableValue with
  | VObj cur, VObj other =>
      VObj ((fix addToResult (other result : obj) {struct other} : obj :=
               match other with
               | [] => result
               | (key, v) :: other' =>
                   addToResult other' (set_own key (newValue (prop cur key) v) result)
               end) other cur)
  | _, _ => immutableValue
  end.

Definition merge (cur other : obj) : obj :=
  fold_left (fun result kv => set_own kv.1 (newValue (prop cur kv.1) kv.2) result)
            other cur.

(** A run of assignments [o[k1] = v1; o[k2] = v2; ...] and the value the
    last of them leaves under a key. *)
Definition assign (writes : list (string * value)) (o : obj) : obj :=
  fold_left (fun o kv => set_own kv.1 kv.2 o) writes o.

Fixpoint last_write (key : string) (writes : list (string * value)) : option value :=
  match writes with
  | [] => None
  | (k, v) :: writes' =>
      match last_write key writes' with
      | Some v' => Some v'
      | None => if String.eqb k key then Some v else None
      end
  end.

(** *** Reads through the prototype chain

    [o[key]] looks for an own property first and then along the prototype
    chain.  The objects the cache builds are plain objects, whose chain ends
    in [Object.prototype]; these are the names it holds.  All of them read as
    something truthy: a method or, for [__proto__], the prototype itself. *)
Definition Object_prototype : list string :=
  ["constructor"; "__defineGetter__"; "__defineSetter__"; "hasOwnProperty";
   "__lookupGetter__"; "__lookupSetter__"; "isPrototypeOf"; "propertyIsEnumerable";
   "toString"; "valueOf"; "__proto__"; "toLocaleString"].

(** What a read gives: a datum ([undefined] when there is nothing under the
    key), or the member the object inherits under that name. *)
Inductive member_read : Type :=
| Data (v : value)
| Inherited (name : string).

Definition inherits (names : list string) (key : string) : bool :=
  existsb (String.eqb key) names.

(** [o[key]] for an object that inherits the members [names]. *)
Definition read (names : list string) (o : obj) (key : string) : member_read :=
  match get_own key o with
  | Some v => Data v
  | None => if inherits names key then Inherited key else Data VUndefined
  end.

Definition truthy_read (r : member_read) : bool :=
  match r with
  | Data v => truthy v
  | Inherited _ => true
  end.

(** *** Objects used as maps of other things

    Own properties that hold something else than data (the queries of the
    debouncer's accumulator). *)
Fixpoint own {A : Type} (key : string) (o : list (string * A)) : option A :=
  match o with
  | [] => None
  | (k, x) :: o' => if String.eqb k key then Some x else own key o'
  end.

Fixpoint store {A : Type} (key : string) (x : A) (o : list (string * A)) : list (string * A) :=
  match o with
  | [] => [(key, x)]
  | (k, y) :: o' =>
      if String.eqb k key then (k, x) :: o' else (k, y) :: store key x o'
  end.

(** *** The order of [Object.keys]

    The own keys that are array indices come first, in ascending numeric
    order, and the other keys follow in the order in which they were
    created.  An array index is the decimal numeral, without leading zeros,
    of a number below [2^32 - 1]. *)
Definition digit (c : ascii) : option N :=
  let n := N_of_ascii c in
  if (48 <=? n)%N && (n <=? 57)%N then Some (n - 48)%N else None.

Fixpoint decimal (s : string) (acc : N) : option N :=
  match s with
  | EmptyString => Some acc
  | String c s' =>
      match digit c with
      | Some d => decimal s' (10 * acc + d)%N
      | None => None
      end
  end.

Definition arrayIndex (key : string) : option N :=
  match key with
  | EmptyString => None
  | String c rest =>
      if Ascii.eqb c "0"%char && negb (String.eqb rest EmptyString) then None
      else match decimal key 0 with
           | Some n => if (n <? 4294967295)%N then Some n else None
           | None => None
           end
  end.

Definition isArrayIndex (key : string) : bool :=
  match arrayIndex key with Some _ => true | None => false end.

Fixpoint insertIndex (n : N) (key : string) (sorted : list (N * string)) : list (N * string) :=
  match sorted with
  | [] => [(n, key)]
  | (m, k) :: rest =>
      if (n <=? m)%N then (n, key) :: sorted else (m, k) :: insertIndex n key rest
  end.

Definition indexKeys (ks : list string) : list (N * string) :=
  foldr (fun key sorted =>
           match arrayIndex key with
           | Some n => insertIndex n key sorted
           | None => sorted
           end) [] ks.

(** One array index is not above another. *)
Definition indexLe (key1 key2 : string) : Prop :=
  exists n1 n2, arrayIndex key1 = Some n1 /\ arrayIndex key2 = Some n2 /\ (n1 <= n2)%N.

(** [Object.keys(o)] for an object whose own keys were created in the order
    [ks]. *)
Definition objectKeys (ks : list string) : list string :=
  map snd (indexKeys ks) ++ List.filter (fun key => negb (isArrayIndex key)) ks.

(** The keys of a list, each at its first occurrence, after those already
    [seen]. *)
Fixpoint firstSeen (seen : list string) (ks : list string) : list string :=
  match ks with
  | [] => []
  | k :: ks' =>
      if inherits seen k then firstSeen seen ks' else k :: firstSeen (seen ++ [k]) ks'
  end.

End JS.

(** ** The accumulating debouncer *)

Module AccumulatingDebounce.

Section Debounce.

Context {Acc Arg : Type}.
Variable accumulate : Acc -> Arg -> Acc.
Variable initAccumulator : unit -> Acc.

(** Modelled from the spec: [./accumulatingDebounce], which the class
    imports, is not among the sources.  The design document describes it as a
    two-state machine.  From Idle the first call starts the timer and seeds
    the accumulator with [initAccumulator()]; every call, the first one
    included, merges its argument with [accumulate]; later calls do not
    restart the timer.  When the timer fires the machine is Idle again and
    the consumer receives the accumulated value, once. *)
Inductive debouncer : Type :=
| Idle
| Accumulating (acc : Acc).

(** Modelled from the spec: a call to the debounced function of the missing
    [./accumulatingDebounce]; the argument is accumulated, from Idle into a
    fresh accumulator. *)
Definition call (d : debouncer) (x : Arg) : debouncer :=
  match d with
  | Idle => Accumulating (accumulate (initAccumulator tt) x)
  | Accumulating acc => Accumulating (accumulate acc x)
  end.

(** Modelled from the spec: the timer of the missing
    [./accumulatingDebounce] fires, which it can only do while the machine
    accumulates.  The result is the value for the consumer and the next
    state. *)
Definition timer_fires (d : debouncer) : option (Acc * debouncer) :=
  match d with
  | Idle => None
  | Accumulating acc => Some (acc, Idle)
  end.

End Debounce.

Arguments debouncer : clear implicits.

End AccumulatingDebounce.

(** ** The cache *)

Module LazyMobXCache.
Import JS.

(** The three shapes of [CacheData] the class writes. *)
Definition complete (datum : value) : value :=
  VObj [("status", VStr "complete"); ("data", datum)].

Definition complete_with_meta (datum meta : value) : value :=
  VObj [("status", VStr "complete"); ("data", datum); ("meta", meta)].

Definition error : value :=
  VObj [("status", VStr "error"); ("data", VNull)].

(** The entries the class stages, and nothing else. *)
Inductive staged_entry : value -> Prop :=
| staged_complete datum : staged_entry (complete datum)
| staged_complete_with_meta datum meta : staged_entry (complete_with_meta datum meta)
| staged_error : staged_entry error.

(** Reading the fields of an entry: [entry.status] and so on. *)
Definition member (v : value) (key : string) : value :=
  match v with VObj o => prop o key | _ => VUndefined end.

Definition has_member (v : value) (key : string) : bool :=
  match v with VObj o => hasOwnProperty o key | _ => false end.

(** [isAugmentedData]: [data.hasOwnProperty("meta")].  The call is a
    [TypeError] on [null] and [undefined], and on an object that has a
    property [hasOwnProperty] of its own, which is data and cannot be called;
    primitives and arrays inherit the method and have no own property
    [meta]. *)
Definition isAugmentedData (data : value) : option bool :=
  match data with
  | VUndefined | VNull => None
  | VObj o =>
      if hasOwnProperty o "hasOwnProperty" then None
      else Some (hasOwnProperty o "meta")
  | _ => Some false
  end.

(** The snapshot is an immutable object of seamless-immutable (the type
    [ImmutableCache] is a [Cache] that is also an
    [Immutable.ImmutableObject]): besides what it inherits from
    [Object.prototype] it carries the methods of the library's instance API,
    [merge] among them, which are not enumerable and which a read finds.  The
    library is not among the sources; the names of its methods are a
    parameter of the development. *)
Class Library : Type := { Immutable_methods : list string }.

Definition snapshot_members {library : Library} : list string :=
  Immutable_methods ++ Object_prototype.

(** The class writes [toMerge[key] = entry] and [pending[key] = true], and
    the library copies the properties of [toMerge] into the new snapshot.  An
    assignment creates a property of the object, except under [__proto__],
    which is an accessor of [Object.prototype]; and the snapshot keeps the
    property, except under the name of one of the library's methods, which
    the library defines anew on every object it returns.  [set_own] and
    [merge] describe the writes under the keys that are [assignable], or
    [storable] in the snapshot. *)
Definition assignable (key : string) : Prop := key <> "__proto__".

Definition storable {library : Library} (key : string) : Prop :=
  assignable key /\ inherits Immutable_methods key = false.

(** How an asynchronous function ends. *)
Inductive settled : Type :=
| Fulfilled (v : value)
| Rejected (reason : value).

(** The two mutable private fields of an instance: [_cache] and [pending]. *)
Record cache_state : Type := CacheState {
  _cache : obj;
  pending : gmap string bool
}.

Section Methods.

Context {library : Library} {Query : Type}.
Variable queryToKey : Query -> string.
(** [dataToKey(d, m?)]: a call without metadata passes [undefined]. *)
Variable dataToKey : value -> value -> string.

Definition init : cache_state := {| _cache := []; pending := ∅ |}.

Definition peek (this : cache_state) (query : Query) : member_read :=
  let key := queryToKey query in
  let cacheData := read snapshot_members (_cache this) key in
  if truthy_read cacheData then cacheData else Data VNull.

Definition updateCache (this : cache_state) (toMerge : obj) : cache_state :=
  if (0 <? length (keys toMerge))%nat
  then {| _cache := merge (_cache this) toMerge; pending := pending this |}
  else this.

Definition addData_toMerge (data : list value) (meta : value) : obj :=
  fold_left (fun toMerge datum => set_own (dataToKey datum meta) (complete datum) toMerge)
            data [].

Definition addData (this : cache_state) (data : list value) (meta : value) : cache_state :=
  updateCache this (addData_toMerge data meta).

(** The own flag of an object that holds booleans, [pending] and the local
    [keyHasData]: what [flags[key]] is for a key the object has, and for
    any key that is not the name of an inherited member.  [markPending],
    [unmarkPending] and the second loop of [putData] only meet keys that
    [getMissing] has let through, none of which is such a name. *)
Definition flagged (flags : gmap string bool) (key : string) : bool :=
  default false (flags !! key).

(** The truthiness of [flags[key]], read through the prototype chain. *)
Definition truthy_flag (flags : gmap string bool) (key : string) : bool :=
  match flags !! key with
  | Some b => b
  | None => inherits Object_prototype key
  end.

Definition getMissing (this : cache_state) (queries : list Query) : list Query :=
  let cache := _cache this in
  let pending := pending this in
  List.filter (fun q =>
                 let key := queryToKey q in
                 negb (truthy_read (read snapshot_members cache key))
                 && negb (truthy_flag pending key))
              queries.

Definition markPending (this : cache_state) (queries : list Query) : cache_state :=
  {| _cache := _cache this;
     pending := fold_left (fun p query => <[queryToKey query := true]> p)
                          queries (pending this) |}.

Definition unmarkPending (this : cache_state) (queries : list Query) : cache_state :=
  {| _cache := _cache this;
     pending := fold_left (fun p query => <[queryToKey query := false]> p)
                          queries (pending this) |}.

Definition markError_toMerge (queries : list Query) : obj :=
  fold_left (fun toMerge query => set_own (queryToKey query) error toMerge) queries [].

Definition markError (this : cache_state) (queries : list Query) : cache_state :=
  updateCache this (markError_toMerge queries).

(** *** [putData]

    The two locals of [putData], [toMerge] and [keyHasData], are threaded
    through its loops.  [None] is an exception thrown while staging: nothing
    has been merged at that point. *)
Definition staging : Type := obj * gmap string bool.

Definition stageDatum (meta : value) (st : staging) (datum : value) : staging :=
  let datumKey := dataToKey datum meta in
  (set_own datumKey (complete_with_meta datum meta) st.1, <[datumKey := true]> st.2).

Definition stageElement (st : staging) (dataElt : value) : option staging :=
  augmented ← isAugmentedData dataElt;
  if augmented : bool then
    let meta := member dataElt "meta" in
    data ← iterate (member dataElt "data");
    Some (fold_left (stageDatum meta) data st)
  else
    let datumKey := dataToKey dataElt VUndefined in
    Some (set_own datumKey (complete dataElt) st.1, <[datumKey := true]> st.2).

Fixpoint stageData (data : list value) (st : staging) : option staging :=
  match data with
  | [] => Some st
  | dataElt :: data' => st' ← stageElement st dataElt; stageData data' st'
  end.

Definition stageAbsent (keyHasData : gmap string bool) (toMerge : obj) (query : Query) : obj :=
  let queryKey := queryToKey query in
  if negb (flagged keyHasData queryKey)
  then set_own queryKey (complete VNull) toMerge
  else toMerge.

Definition putData_toMerge (queries : list Query) (data : list value) : option obj :=
  st ← stageData data ([], ∅);
  Some (fold_left (stageAbsent st.2) queries st.1).

Definition putData (this : cache_state) (queries : list Query) (data : list value)
  : option cache_state :=
  toMerge ← putData_toMerge queries data;
  Some (updateCache this toMerge).

(** *** [populate]

    [populate] runs up to its [await] when the debouncer flushes, and from
    the [await] to its end when the promise of [fetch] settles.  Whatever
    happens in between sees the fields that the first half left. *)

(** Up to the [await]: [None] when nothing is missing (the method returns
    before it calls [fetch]), otherwise the batch handed to [fetch]. *)
Definition populate_begin (this : cache_state) (queries : list Query)
  : cache_state * option (list Query) :=
  let missing := getMissing this queries in
  if (length missing =? 0)%nat then (this, None)
  else (markPending this missing, Some missing).

(** [fetch] rejected (or threw): the [catch] and [finally] blocks. *)
Definition populate_rejected (this : cache_state) (missing : list Query)
  : cache_state * settled :=
  (unmarkPending (markError this missing) missing, Fulfilled (VBool false)).

(** [fetch] resolved with [data]: [putData], and the [catch] block if
    [putData] throws; then the [finally] block. *)
Definition populate_resolved (this : cache_state) (missing : list Query) (data : list value)
  : cache_state * settled :=
  match putData this missing data with
  | Some this' => (unmarkPending this' missing, Fulfilled (VBool true))
  | None => populate_rejected this missing
  end.

(** *** The constructor's debounced [populate] *)

(** The reducer given to [accumulatingDebounce]:
    [queryMap[this.queryToKey(newQuery)] = newQuery].  The accumulator is a
    plain object: an assignment to [__proto__] goes to the accessor it
    inherits and creates no property. *)
Definition accumulateQuery (queryMap : list (string * Query)) (newQuery : Query)
  : list (string * Query) :=
  let key := queryToKey newQuery in
  if String.eqb key "__proto__" then queryMap else store key newQuery queryMap.

Definition emptyQueryMap (_ : unit) : list (string * Query) := [].

(** [Object.keys(queryMap).map(k => queryMap[k])]. *)
Definition queriesOf (queryMap : list (string * Query)) : list Query :=
  omap (fun k => own k queryMap) (objectKeys (map fst queryMap)).

(** *** The cache in its environment

    One cache, its debouncer, the fetches it has started and not seen
    settle, and two logs: the batches the debouncer flushed and the
    arguments [fetch] was called with, oldest first. *)
Record system : Type := System {
  this : cache_state;
  debouncedPopulate : AccumulatingDebounce.debouncer (list (string * Query));
  in_flight : list (list Query);
  flushed : list (list Query);
  fetch_calls : list (list Query)
}.

Definition start : system :=
  {| this := init; debouncedPopulate := AccumulatingDebounce.Idle;
     in_flight := []; flushed := []; fetch_calls := [] |}.

(** What can happen: a caller's [get] or [addData], the debounce timer, and
    the settling of the [n]-th fetch in flight. *)
Inductive event : Type :=
| Get (query : Query)
| AddData (data : list value) (meta : value)
| TimerFires
| FetchResolves (n : nat) (data : list value)
| FetchRejects (n : nat).

(** [get(query)]: hands the query to the debouncer and returns [peek]. *)
Definition get (s : system) (query : Query) : system * member_read :=
  ({| this := this s;
      debouncedPopulate :=
        AccumulatingDebounce.call accumulateQuery emptyQueryMap (debouncedPopulate s) query;
      in_flight := in_flight s; flushed := flushed s; fetch_calls := fetch_calls s |},
   peek (this s) query).

(** The consumer given to [accumulatingDebounce]: [populate] up to its
    [await]. *)
Definition flush (s : system) (queryMap : list (string * Query))
                 (idle : AccumulatingDebounce.debouncer (list (string * Query))) : system :=
  let queries := queriesOf queryMap in
  let r := populate_begin (this s) queries in
  {| this := r.1; debouncedPopulate := idle;
     in_flight := in_flight s ++ option_list r.2;
     flushed := flushed s ++ [queries];
     fetch_calls := fetch_calls s ++ option_list r.2 |}.

Definition settle (s : system) (n : nat)
                  (continue : cache_state -> list Query -> cache_state * settled)
  : option (system * settled) :=
  missing ← in_flight s !! n;
  let r := continue (this s) missing in
  Some ({| this := r.1; debouncedPopulate := debouncedPopulate s;
           in_flight := delete n (in_flight s);
           flushed := flushed s; fetch_calls := fetch_calls s |}, r.2).

(** One event; [None] when it cannot happen in [s]. *)
Definition step (s : system) (e : event) : option system :=
  match e with
  | Get query => Some (get s query).1
  | AddData data meta =>
      Some {| this := addData (this s) data meta;
              debouncedPopulate := debouncedPopulate s;
              in_flight := in_flight s; flushed := flushed s;
              fetch_calls := fetch_calls s |}
  | TimerFires =>
      r ← AccumulatingDebounce.timer_fires (debouncedPopulate s);
      Some (flush s r.1 r.2)
  | FetchResolves n data =>
      fst <$> settle s n (fun c missing => populate_resolved c missing data)
  | FetchRejects n =>
      fst <$> settle s n populate_rejected
  end.

Fixpoint run (s : system) (events : list event) : option system :=
  match events with
  | [] => Some s
  | e :: events' => s' ← step s e; run s' events'
  end.

Definition reachable (s : system) : Prop :=
  exists events, run start events = Some s.

(** *** The design document's view of the merge

    What the document says [putData] stages for one element of a fetch
    result, as a list of assignments to [toMerge]: an element that carries a
    [meta] field is a group, and stages each of its data under
    [dataToKey(datum, meta)] as a complete entry with that metadata; any
    other element is a datum and stages itself under [dataToKey(datum)].
    [None] where the implementation throws. *)
Definition elementWrites (dataElt : value) : option (list (string * value)) :=
  augmented ← isAugmentedData dataElt;
  if augmented : bool then
    data ← iterate (member dataElt "data");
    Some (map (fun datum => (dataToKey datum (member dataElt "meta"),
                             complete_with_meta datum (member dataElt "meta"))) data)
  else Some [(dataToKey dataElt VUndefined, complete dataElt)].

Definition dataWrites (data : list value) : option (list (string * value)) :=
  writes ← mapM elementWrites data; Some (concat writes).

(** The keys a list of assignments marks in [keyHasData]. *)
Definition markKeys (writes : list (string * value)) (keyHasData : gmap string bool)
  : gmap string bool :=
  fold_left (fun flags kv => <[kv.1 := true]> flags) writes keyHasData.

(** The assignments of the second loop of [putData]: the marker for each
    query whose key no datum has marked. *)
Definition absentWrites (keyHasData : gmap string bool) (queries : list Query)
  : list (string * value) :=
  map (fun query => (queryToKey query, complete VNull))
      (List.filter (fun query => negb (flagged keyHasData (queryToKey query))) queries).

(** The keys of a batch. *)
Definition batchKeys (queries : list Query) : list string := map queryToKey queries.

(** An entry reads as an error, or as complete. *)
Definition is_error (entry : value) : Prop := member entry "status" = VStr "error".
Definition is_complete (entry : value) : Prop := member entry "status" = VStr "complete".

(** The shape every entry of a snapshot has: an object, with null data if it
    reads as an error. *)
Definition entries_ok (cache : obj) : Prop :=
  forall key entry,
    get_own key cache = Some entry ->
    isMergableObject entry = true /\ (is_error entry -> member entry "data" = VNull).

(** The last query of a list that has a given key. *)
Fixpoint latest (key : string) (queries : list Query) : option Query :=
  match queries with
  | [] => None
  | query :: queries' =>
      match latest key queries' with
      | Some query' => Some query'
      | None => if String.eqb (queryToKey query) key then Some query else None
      end
  end.

(** *** Readings of the design document that are compared with the code *)

(** [updateCache] as a one-level replacement: each key of [toMerge] ends up
    with exactly the entry supplied for it, every other key keeps its
    entry. *)
Definition replaces_whole_entries (c : cache_state) (toMerge : obj) : Prop :=
  (forall key entry,
      get_own key toMerge = Some entry ->
      get_own key (_cache (updateCache c toMerge)) = Some entry)
  /\ (forall key,
      get_own key toMerge = None ->
      get_own key (_cache (updateCache c toMerge)) = get_own key (_cache c)).

(** Every error entry of the snapshot has null data and no [meta]. *)
Definition errors_are_bare (c : cache_state) : Prop :=
  forall key entry,
    get_own key (_cache c) = Some entry -> is_error entry ->
    member entry "data" = VNull /\ has_member entry "meta" = false.

(** A failed fetch for [missing] leaves alone every key of the batch that
    holds a complete entry when the failure is handled. *)
Definition failure_spares_complete (c : cache_state) (missing : list Query) : Prop :=
  forall query entry,
    query ∈ missing ->
    get_own (queryToKey query) (_cache c) = Some entry -> is_complete entry ->
    get_own (queryToKey query) (_cache (populate_rejected c missing).1) = Some entry.

(** [addData([datum], meta)] makes [peek] return the complete entry that
    carries both the datum and the metadata. *)
Definition addData_carries_meta (c : cache_state) (datum meta : value) (query : Query) : Prop :=
  queryToKey query = dataToKey datum meta ->
  exists entry,
    peek (addData c [datum] meta) query = Data entry
    /\ is_complete entry /\ member entry "data" = datum /\ member entry "meta" = meta.

(** [getMissing] as the filter of the queries whose key has no entry in the
    snapshot and is not marked pending. *)
Definition returns_absent_keys (c : cache_state) (queries : list Query) : Prop :=
  getMissing c queries
  = filter (fun query =>
              get_own (queryToKey query) (_cache c) = None
              /\ pending c !! queryToKey query <> Some true) queries.

(** A debounce window: the [get] calls for [queries], then the timer. *)
Definition window (queries : list Query) : list event :=
  map Get queries ++ [TimerFires].

(** One window flushes once and calls [fetch] once. *)
Definition window_fetches_once (s : system) (queries : list Query) : Prop :=
  exists s', run s (window queries) = Some s'
    /\ length (flushed s') = S (length (flushed s))
    /\ length (fetch_calls s') = S (length (fetch_calls s)).

End Methods.

End LazyMobXCache.

(** ** A concrete cache

    Queries are identifiers, a datum is an object with an [id] property, and
    both key functions read the identifier. *)
Module Example.
Import JS LazyMobXCache.

(** The instance API of version 7 of the library. *)
#[export] Instance seamless_immutable : Library :=
  {| Immutable_methods :=
       ["merge"; "replace"; "without"; "asMutable"; "set"; "setIn"; "update";
        "updateIn"; "getIn"] |}.

Definition queryToKey (query : string) : string := query.

Definition dataToKey (datum meta : value) : string :=
  match member datum "id" with VStr id => id | _ => EmptyString end.

Definition datum (id : string) (n : Z) : value :=
  VObj [("id", VStr id); ("n", VNum n)].

Definition meta : value := VObj [("source", VStr "study")].

Definition group (data : list value) : value :=
  VObj [("data", VArr data); ("meta", meta)].

(** Two fetches in flight, for ["a"] and for ["b"]; the second resolves with
    a group that holds a datum for ["a"]; then the first one fails. *)
Definition before_failure : list (event (Query := string)) :=
  [Get "a"; TimerFires; Get "b"; TimerFires; FetchResolves 1 [group [datum "a" 1]]].

Definition overlapping : list (event (Query := string)) :=
  before_failure ++ [FetchRejects 0].

(** [addData] supplies the datum for ["a"] while its fetch is in flight. *)
Definition supplied_in_flight : list (event (Query := string)) :=
  [Get "a"; TimerFires; AddData [datum "a" 1] VUndefined].

(** ["a"] is known before a window asks for it. *)
Definition known_before : list (event (Query := string)) :=
  [AddData [datum "a" 1] VUndefined].

(** The fields of the cache after [before_failure]: the snapshot holds a
    complete entry with metadata under ["a"], whose fetch is still pending.
    [error_for_a] is the mapping [markError] builds for the batch ["a"]. *)
Definition holds_a : cache_state :=
  {| _cache := [("a", complete_with_meta (datum "a" 1) meta); ("b", complete VNull)];
     pending := <["b" := false]> {["a" := true]} |}.

Definition error_for_a : obj := markError_toMerge queryToKey ["a"].

(** The state in which the fetch for ["a"] is in flight, as the trace
    [Get "a"; TimerFires] leaves it. *)
Definition fetching_a : system (Query := string) :=
  {| this := {| _cache := []; pending := {["a" := true]} |};
     debouncedPopulate := AccumulatingDebounce.Idle;
     in_flight := [["a"]]; flushed := [["a"]]; fetch_calls := [["a"]] |}.

(** The state the trace [overlapping] ends in: the group's metadata sits in
    the error entry of ["a"]. *)
Definition failed_a : system (Query := string) :=
  {| this := {| _cache := [("a", VObj [("status", VStr "error"); ("data", VNull);
                                       ("meta", meta)]);
                           ("b", complete VNull)];
                pending := <["b" := false]> (<["a" := false]> ∅) |};
     debouncedPopulate := AccumulatingDebounce.Idle;
     in_flight := []; flushed := [["a"]; ["b"]]; fetch_calls := [["a"]; ["b"]] |}.

(** The states the traces [supplied_in_flight] and [known_before] end in. *)
Definition supplied_a : system (Query := string) :=
  {| this := {| _cache := [("a", complete (datum "a" 1))]; pending := {["a" := true]} |};
     debouncedPopulate := AccumulatingDebounce.Idle;
     in_flight := [["a"]]; flushed := [["a"]]; fetch_calls := [["a"]] |}.

Definition known_a : system (Query := string) :=
  {| this := {| _cache := [("a", complete (datum "a" 1))]; pending := ∅ |};
     debouncedPopulate := AccumulatingDebounce.Idle;
     in_flight := []; flushed := []; fetch_calls := [] |}.

(** A flat fetch result with data for ["a"] and for a key nobody asked
    for, and what it stages. *)
Definition flat_result : list value := [datum "a" 1; datum "z" 2].

Definition flat_writes : list (string * value) :=
  [("a", complete (datum "a" 1)); ("z", complete (datum "z" 2))].

End Example.

(** ** The life of a key

    Notions about the cache in its environment that the properties of
    [populate], [markPending] and [unmarkPending] are stated with. *)

Module Lifecycle.
Import JS LazyMobXCache.

Section Definitions.

Context {library : Library} {Query : Type}.
Variable queryToKey : Query -> string.

(** The keys of a list of batches, batch after batch. *)
Definition keysOfBatches (batches : list (list Query)) : list string :=
  concat (map (batchKeys queryToKey) batches).

(** The snapshot has an entry under the key. *)
Definition known (c : cache_state) (key : string) : Prop :=
  is_Some (get_own key (_cache c)).

(** The test of [getMissing] fails for the key: [cache[key]] or
    [pending[key]] is truthy. *)
Definition seen (c : cache_state) (key : string) : bool :=
  truthy_read (read snapshot_members (_cache c) key) || truthy_flag (pending c) key.

(** Every query of an accumulator sits under its own key, and no key occurs
    twice. *)
Definition keyed (queryMap : list (string * Query)) : Prop :=
  NoDup (map fst queryMap)
  /\ forall key query, (key, query) ∈ queryMap -> queryToKey query = key.

Definition debouncer_keyed (d : AccumulatingDebounce.debouncer (list (string * Query))) : Prop :=
  match d with
  | AccumulatingDebounce.Idle => True
  | AccumulatingDebounce.Accumulating acc => keyed acc
  end.

(** An entry is an object whose status is one of the two the class writes. *)
Definition entry_shaped (entry : value) : Prop :=
  isMergableObject entry = true /\ (is_complete entry \/ is_error entry).

Definition shaped (cache : obj) : Prop :=
  forall key entry, get_own key cache = Some entry -> entry_shaped entry.

(** How the snapshot, the pending flags and the two lists of batches hang
    together. *)
Record consistent (s : system) : Prop := Consistent {
  consistent_entries : entries_ok (_cache (this s));
  consistent_debouncer : debouncer_keyed (debouncedPopulate s);
  consistent_pending : forall key,
      flagged (pending (this s)) key = true <-> key ∈ keysOfBatches (in_flight s);
  consistent_in_flight : NoDup (keysOfBatches (in_flight s));
  consistent_fetched : forall key,
      key ∈ keysOfBatches (fetch_calls s) ->
      known (this s) key \/ key ∈ keysOfBatches (in_flight s);
  consistent_started : forall key,
      key ∈ keysOfBatches (in_flight s) -> key ∈ keysOfBatches (fetch_calls s);
  consistent_calls : NoDup (keysOfBatches (fetch_calls s))
}.

(** An element of a fetch result on which [putData] throws: [null] or
    [undefined], an object whose [hasOwnProperty] is a property of its own,
    or a group whose [data] cannot be iterated. *)
Definition malformed (dataElt : value) : Prop :=
  dataElt = VNull \/ dataElt = VUndefined
  \/ has_member dataElt "hasOwnProperty" = true
  \/ (has_member dataElt "meta" = true /\ iterate (member dataElt "data") = None).

(** The malformed elements whose group, if they are one, has no [data] at
    all. *)
Definition unreadable (dataElt : value) : Prop :=
  dataElt = VNull \/ dataElt = VUndefined
  \/ has_member dataElt "hasOwnProperty" = true
  \/ (has_member dataElt "meta" = true
      /\ (member dataElt "data" = VNull \/ member dataElt "data" = VUndefined)).

End Definitions.

End Lifecycle.

(** ** The pie chart

    The parts of [pages/studyView/charts/pieChart/PieChart.tsx] that compute
    on the properties of the component: the selection a click produces and
    the style of a slice. *)

Module PieChart.

(** The fields of [ClinicalDataCountWithColor] that the chart reads. *)
Record ClinicalDataCountWithColor : Type := {
  value : string;
  count : Z;
  color : string
}.

Section Chart.

(** [UNSELECTED_COLOR] is imported from [StudyViewUtils]. *)
Variable UNSELECTED_COLOR : string.

(** Lodash's [_.includes] and [_.isEmpty] on an array of strings. *)
Definition includes (collection : list string) (v : string) : bool :=
  existsb (String.eqb v) collection.

Definition isEmpty (collection : list string) : bool :=
  match collection with [] => true | _ => false end.

(** [onUserSelection(filter)]: the list handed to [props.onUserSelection]. *)
Definition onUserSelection (filters : list string) (filter : string) : list string :=
  if includes filters filter
  then List.filter (fun obj => negb (String.eqb obj filter)) filters
  else filters ++ [filter].

(** The four style callbacks of the pie, for the current [props.filters]. *)
Definition fill (filters : list string) (d : ClinicalDataCountWithColor) : string :=
  if negb (isEmpty filters) && negb (includes filters (value d))
  then UNSELECTED_COLOR else color d.

Definition stroke (filters : list string) (d : ClinicalDataCountWithColor) : option string :=
  if negb (isEmpty filters) && includes filters (value d)
  then Some "#cccccc" else None.

Definition strokeWidth (filters : list string) (d : ClinicalDataCountWithColor) : Z :=
  if negb (isEmpty filters) && includes filters (value d) then 3%Z else 0%Z.

Definition fillOpacity (filters : list string) (d : ClinicalDataCountWithColor) : JS.value :=
  if negb (isEmpty filters) && negb (includes filters (value d))
  then JS.VStr "0.5" else JS.VNum 1.

(** [totalCount]: [_.sumBy(props.data, obj => obj.count)]. *)
Definition totalCount (data : list ClinicalDataCountWithColor) : Z :=
  fold_left (fun sum obj => (sum + count obj)%Z) data 0%Z.

End Chart.

End PieChart.

(** ** More states of the concrete cache *)

Module LifecycleExample.
Import JS LazyMobXCache Example.

(** From [supplied_a]: the fetch for ["a"] fails and ["a"] is asked for
    again. *)
Definition asked_again : list (event (Query := string)) :=
  [FetchRejects 0; Get "a"; TimerFires].

Definition rejected_a : system (Query := string) :=
  {| this := {| _cache := [("a", error)]; pending := {["a" := false]} |};
     debouncedPopulate := AccumulatingDebounce.Idle;
     in_flight := []; flushed := [["a"]; ["a"]]; fetch_calls := [["a"]] |}.

End LifecycleExample.

(** ** A concrete chart *)

Module PieChartExample.
Import PieChart.

Definition slices : list ClinicalDataCountWithColor :=
  [ {| value := "Male"; count := 12; color := "#2986e2" |};
    {| value := "Female"; count := 30; color := "#dc3912" |} ].

End PieChartExample.

(** ** Objects, assignments and the deep merge *)

Module JSFacts.
Import JS.

Lemma eqb_eq_true (k : string) : String.eqb k k = true.
Proof. apply String.eqb_refl. Qed.

Lemma eqb_neq_false (k key : string) : k <> key -> String.eqb k key = false.
Proof. apply String.eqb_neq. Qed.

Lemma get_own_set_own key key' v o :
  get_own key (set_own key' v o) = if String.eqb key' key then Some v else get_own key o.
Proof.
  induction o as [|[k w] o IH]; simpl; [done|].
  destruct (String.eqb_spec k key') as [->|Hk]; simpl.
  - by destruct (String.eqb key' key).
  - rewrite IH. destruct (String.eqb_spec k key) as [->|]; [|done].
    by rewrite eqb_neq_false.
Qed.

Lemma get_own_None key o : get_own key o = None <-> key ∉ keys o.
Proof.
  induction o as [|[k w] o IH]; simpl.
  - split; [intros _; apply not_elem_of_nil|done].
  - rewrite not_elem_of_cons. destruct (String.eqb_spec k key) as [->|Hk].
    + split; [done|]. by intros [? _].
    + rewrite IH. split; [done|]. by intros [_ ?].
Qed.

Lemma get_own_elem_of key v o : get_own key o = Some v -> (key, v) ∈ o.
Proof.
  induction o as [|[k w] o IH]; simpl; [done|].
  destruct (String.eqb_spec k key) as [->|].
  - intros [= ->]. apply elem_of_cons; by left.
  - intros H. apply elem_of_cons; right; auto.
Qed.

Lemma hasOwnProperty_true key o : hasOwnProperty o key = true <-> key ∈ keys o.
Proof.
  unfold hasOwnProperty. destruct (get_own key o) eqn:E.
  - split; [intros _|done]. apply get_own_elem_of in E.
    unfold keys. apply list_elem_of_fmap. by exists (key, v).
  - apply get_own_None in E. split; [done|]. intros H. by destruct E.
Qed.

Lemma keys_set_own_old key v o : key ∈ keys o -> keys (set_own key v o) = keys o.
Proof.
  induction o as [|[k w] o IH]; simpl.
  - by intros ?%elem_of_nil.
  - intros [->|Hin]%elem_of_cons.
    + by rewrite eqb_eq_true.
    + destruct (String.eqb k key); simpl; [done|]. by rewrite IH.
Qed.

Lemma keys_set_own_new key v o : key ∉ keys o -> keys (set_own key v o) = keys o ++ [key].
Proof.
  induction o as [|[k w] o IH]; simpl; [done|].
  intros [Hk Hin]%not_elem_of_cons.
  rewrite eqb_neq_false by done. simpl. by rewrite IH.
Qed.

Lemma NoDup_keys_set_own key v o : NoDup (keys o) -> NoDup (keys (set_own key v o)).
Proof.
  intros H. destruct (decide (key ∈ keys o)) as [Hin|Hin].
  - by rewrite keys_set_own_old.
  - rewrite keys_set_own_new by done.
    apply NoDup_app. split_and!; [done| |apply NoDup_singleton].
    by intros x Hx ->%list_elem_of_singleton.
Qed.

Lemma elem_of_set_own k v key w o :
  (k, v) ∈ set_own key w o -> (k, v) = (key, w) \/ (k, v) ∈ o.
Proof.
  induction o as [|[k' w'] o IH]; simpl.
  - intros ->%list_elem_of_singleton. by left.
  - destruct (String.eqb_spec k' key) as [->|Hk]; intros [H|H]%elem_of_cons.
    + by left.
    + right. apply elem_of_cons. by right.
    + right. apply elem_of_cons. by left.
    + destruct (IH H) as [?|?]; [by left|]. right. apply elem_of_cons. by right.
Qed.

Lemma assign_cons k v writes o :
  assign ((k, v) :: writes) o = assign writes (set_own k v o).
Proof. done. Qed.

Lemma assign_app ws1 ws2 o : assign (ws1 ++ ws2) o = assign ws2 (assign ws1 o).
Proof. unfold assign. apply fold_left_app. Qed.

Lemma NoDup_keys_assign writes o : NoDup (keys o) -> NoDup (keys (assign writes o)).
Proof.
  revert o. induction writes as [|[k v] ws IH]; intros o H; [done|].
  rewrite assign_cons. by apply IH, NoDup_keys_set_own.
Qed.

Lemma last_write_app key ws1 ws2 :
  last_write key (ws1 ++ ws2) =
  match last_write key ws2 with Some v => Some v | None => last_write key ws1 end.
Proof.
  induction ws1 as [|[k v] ws1 IH]; simpl.
  - by destruct (last_write key ws2).
  - rewrite IH. by destruct (last_write key ws2).
Qed.

Lemma last_write_None key writes : last_write key writes = None <-> key ∉ writes.*1.
Proof.
  induction writes as [|[k v] ws IH]; simpl.
  - split; [intros _; apply not_elem_of_nil|done].
  - rewrite not_elem_of_cons. destruct (last_write key ws).
    + split; [done|]. intros [_ H]. by apply IH in H.
    + destruct (String.eqb_spec k key) as [->|Hk].
      * split; [done|]. by intros [? _].
      * split; [|done]. intros _. split; [done|]. by apply IH.
Qed.

Lemma last_write_elem_of key v writes : last_write key writes = Some v -> (key, v) ∈ writes.
Proof.
  induction writes as [|[k w] ws IH]; simpl; [done|].
  destruct (last_write key ws).
  - intros [= ->]. apply elem_of_cons; right; auto.
  - destruct (String.eqb_spec k key) as [->|]; [|done].
    intros [= ->]. apply elem_of_cons; by left.
Qed.

Lemma last_write_NoDup key o : NoDup (keys o) -> last_write key o = get_own key o.
Proof.
  induction o as [|[k v] o IH]; simpl; [done|].
  intros [Hk Ho]%NoDup_cons. rewrite IH by done.
  destruct (String.eqb_spec k key) as [->|]; [|by destruct (get_own key o)].
  by apply get_own_None in Hk as ->.
Qed.

Lemma last_write_fmap (f : string -> value -> value) key writes :
  last_write key (map (fun kv => (kv.1, f kv.1 kv.2)) writes) = f key <$> last_write key writes.
Proof.
  induction writes as [|[k v] ws IH]; simpl; [done|].
  rewrite IH. destruct (last_write key ws); simpl; [done|].
  by destruct (String.eqb_spec k key) as [->|].
Qed.

(** The value an object has under a key after a run of assignments. *)
Lemma get_own_assign key writes o :
  get_own key (assign writes o) =
  match last_write key writes with Some v => Some v | None => get_own key o end.
Proof.
  revert o. induction writes as [|[k v] ws IH]; intros o; [done|].
  rewrite assign_cons, IH, get_own_set_own. simpl.
  destruct (last_write key ws); [done|]. by destruct (String.eqb k key).
Qed.

(** The merge is a run of assignments to a copy of the receiver. *)
Lemma merge_assign cur other :
  merge cur other = assign (map (fun kv => (kv.1, newValue (prop cur kv.1) kv.2)) other) cur.
Proof.
  unfold merge, assign. generalize cur at 2 4 as result.
  induction other as [|[k v] other IH]; intros result; simpl; [done|]. apply IH.
Qed.

Lemma newValue_obj cur other : newValue (VObj cur) (VObj other) = VObj (merge cur other).
Proof.
  simpl. f_equal. unfold merge. generalize cur at 2 4 as result.
  induction other as [|[k v] other IH]; intros result; simpl; [done|]. apply IH.
Qed.

Lemma newValue_not_mergable_r cur v : isMergableObject v = false -> newValue cur v = v.
Proof. by destruct cur, v. Qed.

Lemma newValue_not_mergable_l cur v : isMergableObject cur = false -> newValue cur v = v.
Proof. by destruct cur, v. Qed.

(** What the deep merge leaves under each key. *)
Lemma get_own_merge key cur other :
  get_own key (merge cur other) =
  match last_write key other with
  | Some v => Some (newValue (prop cur key) v)
  | None => get_own key cur
  end.
Proof.
  rewrite merge_assign, get_own_assign.
  rewrite (last_write_fmap (fun k v => newValue (prop cur k) v)).
  by destruct (last_write key other).
Qed.

Lemma NoDup_keys_merge cur other : NoDup (keys cur) -> NoDup (keys (merge cur other)).
Proof. rewrite merge_assign. apply NoDup_keys_assign. Qed.

End JSFacts.

(** ** Entries under the deep merge *)

Module EntryFacts.
Import JS JSFacts LazyMobXCache.

Lemma NoDup_keys_complete datum : NoDup (keys [("status", VStr "complete"); ("data", datum)]).
Proof. simpl. compute_done. Qed.

Lemma NoDup_keys_complete_with_meta datum meta :
  NoDup (keys [("status", VStr "complete"); ("data", datum); ("meta", meta)]).
Proof. simpl. compute_done. Qed.

Lemma NoDup_keys_error : NoDup (keys [("status", VStr "error"); ("data", VNull)]).
Proof. simpl. compute_done. Qed.

(** Merging an object into whatever is stored goes field by field: a field
    of the new object is merged into the stored field, a field the new
    object lacks is kept. *)
Lemma member_newValue stored o field :
  NoDup (keys o) ->
  member (newValue stored (VObj o)) field =
  match get_own field o with
  | Some v => newValue (member stored field) v
  | None => member stored field
  end.
Proof.
  intros Ho. destruct stored as [| | | | | |cur];
    try (simpl; unfold prop; destruct (get_own field o) as [v|]; simpl; [by destruct v|done]).
  rewrite newValue_obj. simpl. unfold prop.
  rewrite get_own_merge, last_write_NoDup by done.
  by destruct (get_own field o).
Qed.

Lemma has_member_newValue stored o field :
  NoDup (keys o) ->
  has_member (newValue stored (VObj o)) field = hasOwnProperty o field || has_member stored field.
Proof.
  intros Ho. destruct stored as [| | | | | |cur];
    try (simpl; by rewrite orb_false_r).
  rewrite newValue_obj. simpl. unfold hasOwnProperty.
  rewrite get_own_merge, last_write_NoDup by done.
  by destruct (get_own field o).
Qed.

Lemma newValue_undefined v : newValue VUndefined v = v.
Proof. by destruct v. Qed.

Lemma isMergableObject_newValue stored o : isMergableObject (newValue stored (VObj o)) = true.
Proof. by destruct stored. Qed.

Lemma staged_entry_status stored entry :
  staged_entry entry ->
  member (newValue stored entry) "status" = member entry "status".
Proof.
  intros [d|d m|]; unfold complete, complete_with_meta, error.
  - rewrite member_newValue by apply NoDup_keys_complete.
    by apply newValue_not_mergable_r.
  - rewrite member_newValue by apply NoDup_keys_complete_with_meta.
    by apply newValue_not_mergable_r.
  - rewrite member_newValue by apply NoDup_keys_error.
    by apply newValue_not_mergable_r.
Qed.

Lemma merged_error_data stored : member (newValue stored error) "data" = VNull.
Proof.
  unfold error. rewrite member_newValue by apply NoDup_keys_error.
  by apply newValue_not_mergable_r.
Qed.

Lemma merged_absent_data stored : member (newValue stored (complete VNull)) "data" = VNull.
Proof.
  unfold complete. rewrite member_newValue by apply NoDup_keys_complete.
  by apply newValue_not_mergable_r.
Qed.

End EntryFacts.

(** ** The methods of the cache *)

Module CacheFacts.
Import JS JSFacts LazyMobXCache EntryFacts.

Section Facts.

Context {library : Library} {Query : Type}.
Variable queryToKey : Query -> string.
Variable dataToKey : value -> value -> string.

Lemma fold_set_own_assign {A} (f : A -> string) (g : A -> value) (l : list A) (o : obj) :
  fold_left (fun o x => set_own (f x) (g x) o) l o = assign (map (fun x => (f x, g x)) l) o.
Proof.
  revert o. induction l as [|x l IH]; intros o; simpl; [done|]. by rewrite IH.
Qed.

Lemma last_write_assign_nil key writes : last_write key (assign writes []) = last_write key writes.
Proof.
  rewrite last_write_NoDup by apply NoDup_keys_assign, NoDup_nil_2.
  rewrite get_own_assign. by destruct (last_write key writes).
Qed.

Lemma elem_of_assign k v writes o : (k, v) ∈ assign writes o -> (k, v) ∈ writes \/ (k, v) ∈ o.
Proof.
  revert o. induction writes as [|[k' v'] ws IH]; intros o; [by right|].
  rewrite assign_cons. intros [H|H]%IH.
  - left. apply elem_of_cons. by right.
  - apply elem_of_set_own in H as [->|H]; [left; apply elem_of_cons; by left|by right].
Qed.

Lemma cache_updateCache c toMerge : _cache (updateCache c toMerge) = merge (_cache c) toMerge.
Proof. unfold updateCache. by destruct toMerge. Qed.

Lemma pending_updateCache c toMerge : pending (updateCache c toMerge) = pending c.
Proof. unfold updateCache. by destruct toMerge. Qed.

(** The snapshot after [updateCache], key by key. *)
Lemma get_own_updateCache c toMerge key :
  get_own key (_cache (updateCache c toMerge)) =
  match last_write key toMerge with
  | Some entry => Some (newValue (prop (_cache c) key) entry)
  | None => get_own key (_cache c)
  end.
Proof. by rewrite cache_updateCache, get_own_merge. Qed.

(** *** Batches of keys *)

Lemma last_write_const (f : Query -> string) (entry : value) (queries : list Query) key :
  last_write key (map (fun q => (f q, entry)) queries) =
  if decide (key ∈ map f queries) then Some entry else None.
Proof.
  induction queries as [|q qs IH]; cbn [map last_write].
  - rewrite decide_False; [done|apply not_elem_of_nil].
  - rewrite IH. destruct (decide (key ∈ map f qs)) as [Hin|Hin].
    + rewrite decide_True; [done|apply elem_of_cons; by right].
    + destruct (String.eqb_spec (f q) key) as [<-|Hne].
      * rewrite decide_True; [done|apply elem_of_cons; by left].
      * rewrite decide_False; [done|]. rewrite not_elem_of_cons. split; [congruence|done].
Qed.

Lemma markError_toMerge_assign queries :
  markError_toMerge queryToKey queries = assign (map (fun q => (queryToKey q, error)) queries) [].
Proof. apply (fold_set_own_assign queryToKey (fun _ => error)). Qed.

Lemma last_write_markError_toMerge queries key :
  last_write key (markError_toMerge queryToKey queries) =
  if decide (key ∈ batchKeys queryToKey queries) then Some error else None.
Proof. rewrite markError_toMerge_assign, last_write_assign_nil. apply last_write_const. Qed.

Lemma flagged_fold_insert (b : bool) (queries : list Query) (p : gmap string bool) key :
  flagged (fold_left (fun p query => <[queryToKey query := b]> p) queries p) key =
  if decide (key ∈ batchKeys queryToKey queries) then b else flagged p key.
Proof.
  unfold batchKeys. revert p. induction queries as [|q qs IH]; intros p; cbn [map fold_left].
  - rewrite decide_False; [done|apply not_elem_of_nil].
  - rewrite IH. destruct (decide (key ∈ map queryToKey qs)) as [Hin|Hin].
    + rewrite decide_True; [done|apply elem_of_cons; by right].
    + unfold flagged. destruct (decide (queryToKey q = key)) as [<-|Hne].
      * rewrite lookup_insert_eq. rewrite decide_True; [done|apply elem_of_cons; by left].
      * rewrite lookup_insert_ne by done.
        rewrite decide_False; [done|]. rewrite not_elem_of_cons. split; [congruence|done].
Qed.

Lemma elem_of_batchKeys query queries :
  query ∈ queries -> queryToKey query ∈ batchKeys queryToKey queries.
Proof. intros H. unfold batchKeys. apply list_elem_of_fmap. by exists query. Qed.

(** The snapshot after [markError], key by key. *)
Lemma get_own_markError c missing key :
  get_own key (_cache (markError queryToKey c missing)) =
  if decide (key ∈ batchKeys queryToKey missing)
  then Some (newValue (prop (_cache c) key) error)
  else get_own key (_cache c).
Proof.
  unfold markError. rewrite get_own_updateCache, last_write_markError_toMerge.
  by case_decide.
Qed.

(** *** [updateCache] *)

(** C1, as the code has it: [updateCache] maps each supplied key to the
    supplied entry deep-merged into the entry stored under that key, which
    is exactly the supplied entry when the key had none; every key that is
    not supplied keeps its entry.  The deep merge of an object goes field by
    field: a supplied field is merged into the stored one, a field that is
    not supplied is kept.  Merging a supplied value into a stored one gives
    the supplied value, unless both are plain objects, which are merged field
    by field in turn: a supplied status, a supplied null and a supplied
    datum that is not an object replace what was stored, and any supplied
    datum replaces a stored null. *)
Theorem updateCache_deep_merge (c : cache_state) (toMerge : obj) :
  NoDup (keys toMerge) ->
  (forall key entry,
      storable key ->
      get_own key toMerge = Some entry ->
      get_own key (_cache (updateCache c toMerge))
        = Some (newValue (prop (_cache c) key) entry)
      /\ (get_own key (_cache c) = None ->
          get_own key (_cache (updateCache c toMerge)) = Some entry))
  /\ (forall key,
      get_own key toMerge = None ->
      get_own key (_cache (updateCache c toMerge)) = get_own key (_cache c))
  /\ (forall stored fields field,
      NoDup (keys fields) ->
      member (newValue stored (VObj fields)) field =
      match get_own field fields with
      | Some v => newValue (member stored field) v
      | None => member stored field
      end)
  /\ (forall stored supplied,
      (forall fields, supplied <> VObj fields) -> newValue stored supplied = supplied)
  /\ (forall stored supplied,
      (forall fields, stored <> VObj fields) -> newValue stored supplied = supplied)
  /\ (forall stored supplied,
      newValue (VObj stored) (VObj supplied) = VObj (merge stored supplied))
  /\ (forall stored supplied field,
      NoDup (keys supplied) ->
      get_own field (merge stored supplied)
      = match get_own field supplied with
        | Some v => Some (newValue (prop stored field) v)
        | None => get_own field stored
        end).
Proof.
  intros Hkeys. split_and!.
  - intros key entry _ Hentry.
    rewrite get_own_updateCache, last_write_NoDup, Hentry by done.
    split; [done|]. intros Hnone. unfold prop. rewrite Hnone. simpl.
    by rewrite newValue_undefined.
  - intros key Hnone.
    by rewrite get_own_updateCache, last_write_NoDup, Hnone.
  - intros stored fields field Hfields. by apply member_newValue.
  - intros stored supplied Hobj.
    destruct supplied as [| | | | | |fields]; try by destruct stored.
    by destruct (Hobj fields).
  - intros stored supplied Hobj.
    destruct stored as [| | | | | |fields]; try by destruct supplied.
    by destruct (Hobj fields).
  - intros stored supplied. apply newValue_obj.
  - intros stored supplied field Hnd. by rewrite get_own_merge, last_write_NoDup.
Qed.

(** *** [markError] *)

Lemma truthy_mergable v : isMergableObject v = true -> truthy v = true.
Proof. by destruct v. Qed.

Lemma merged_error_other_field stored field :
  field <> "status" -> field <> "data" ->
  member (newValue stored error) field = member stored field.
Proof.
  intros Hs Hd. unfold error. rewrite member_newValue by apply NoDup_keys_error.
  cbn [get_own]. by rewrite !eqb_neq_false.
Qed.

(** C3, as the code has it: when the fetch for a batch fails, every key of
    the batch is marked as an error whatever it holds at that moment.  An
    entry that is stored under the key, complete or not, has its status and
    data overwritten by those of the error entry and keeps only its other
    fields. *)
Theorem failure_overwrites_every_key (c : cache_state) (missing : list Query) (query : Query) :
  query ∈ missing ->
  exists entry,
    get_own (queryToKey query) (_cache (populate_rejected queryToKey c missing).1) = Some entry
    /\ entry = newValue (prop (_cache c) (queryToKey query)) error
    /\ is_error entry
    /\ member entry "data" = VNull
    /\ (forall field, field <> "status" -> field <> "data" ->
        member entry field = member (prop (_cache c) (queryToKey query)) field)
    /\ (forall old,
        get_own (queryToKey query) (_cache c) = Some old -> is_complete old ->
        entry <> old).
Proof.
  intros Hin. cbn [populate_rejected fst unmarkPending _cache].
  assert (is_error (newValue (prop (_cache c) (queryToKey query)) error)) as Herr.
  { unfold is_error. by rewrite staged_entry_status by constructor. }
  eexists. split_and!; [|reflexivity|exact Herr| | |].
  - rewrite get_own_markError. rewrite decide_True; [done|by apply elem_of_batchKeys].
  - apply merged_error_data.
  - intros field Hs Hd. by apply merged_error_other_field.
  - intros old _ Hold Heq. rewrite Heq in Herr.
    unfold is_error, is_complete in *. congruence.
Qed.

(** *** [populate] when the fetch fails *)

Lemma peek_entry c (query : Query) entry :
  get_own (queryToKey query) (_cache c) = Some entry ->
  isMergableObject entry = true ->
  peek queryToKey c query = Data entry.
Proof.
  intros Hget Hobj. unfold peek, read. rewrite Hget. cbn [truthy_read].
  by rewrite truthy_mergable.
Qed.

(** C5: if the fetch for a batch rejects, [populate] settles by resolving
    (to [false]); every key of the batch then reads as an error entry with
    null data, and none of them is marked pending. *)
Theorem rejected_fetch_is_absorbed (s : system) (n : nat) (missing : list Query) :
  in_flight s !! n = Some missing ->
  exists s',
    settle s n (populate_rejected queryToKey) = Some (s', Fulfilled (VBool false))
    /\ step queryToKey dataToKey s (FetchRejects n) = Some s'
    /\ forall query, query ∈ missing ->
         exists entry,
           get_own (queryToKey query) (_cache (this s')) = Some entry
           /\ peek queryToKey (this s') query = Data entry
           /\ is_error entry
           /\ member entry "data" = VNull
           /\ flagged (pending (this s')) (queryToKey query) = false.
Proof.
  intros Hn. eexists. split_and!.
  - unfold settle. rewrite Hn. reflexivity.
  - simpl. unfold settle. rewrite Hn. reflexivity.
  - intros query Hin. cbn [this fst populate_rejected].
    pose proof (elem_of_batchKeys query missing Hin) as Hkey.
    set (c' := unmarkPending queryToKey (markError queryToKey (this s) missing) missing).
    assert (get_own (queryToKey query) (_cache c')
            = Some (newValue (prop (_cache (this s)) (queryToKey query)) error)) as Hget.
    { subst c'. cbn [unmarkPending _cache]. rewrite get_own_markError.
      by rewrite decide_True. }
    eexists. split_and!.
    + exact Hget.
    + apply peek_entry; [exact Hget|apply isMergableObject_newValue].
    + unfold is_error. by rewrite staged_entry_status by constructor.
    + apply merged_error_data.
    + subst c'. cbn [unmarkPending pending]. rewrite flagged_fold_insert.
      by rewrite decide_True.
Qed.

(** *** [putData] *)

Lemma markKeys_app ws1 ws2 flags :
  markKeys (ws1 ++ ws2) flags = markKeys ws2 (markKeys ws1 flags).
Proof. unfold markKeys. apply fold_left_app. Qed.

Lemma flagged_markKeys writes flags key :
  flagged (markKeys writes flags) key = flagged flags key || bool_decide (key ∈ writes.*1).
Proof.
  revert flags. induction writes as [|[k v] ws IH]; intros flags.
  - cbn [markKeys fold_left]. rewrite bool_decide_eq_false_2; [by rewrite orb_false_r|].
    apply not_elem_of_nil.
  - change (markKeys ((k, v) :: ws) flags) with (markKeys ws (<[k := true]> flags)).
    rewrite IH. unfold flagged. rewrite fmap_cons. cbn [fst].
    destruct (decide (k = key)) as [->|Hne].
    + rewrite lookup_insert_eq. cbn [default orb].
      rewrite (bool_decide_eq_true_2 (key ∈ key :: ws.*1)); [|apply elem_of_cons; by left].
      by rewrite orb_true_r.
    + rewrite lookup_insert_ne by done. f_equal.
      apply bool_decide_ext. rewrite elem_of_cons.
      split; [by right|]. by intros [?|?].
Qed.

Lemma flagged_empty key : flagged ∅ key = false.
Proof. unfold flagged. by rewrite lookup_empty. Qed.

Lemma fold_stageDatum meta data (st : staging) :
  fold_left (stageDatum dataToKey meta) data st =
  let writes := map (fun datum => (dataToKey datum meta, complete_with_meta datum meta)) data in
  (assign writes st.1, markKeys writes st.2).
Proof.
  revert st. induction data as [|d data IH]; intros [toMerge flags]; [done|].
  cbn [fold_left]. by rewrite IH.
Qed.

Lemma stageElement_writes (st : staging) dataElt :
  stageElement dataToKey st dataElt =
  (writes ← elementWrites dataToKey dataElt; Some (assign writes st.1, markKeys writes st.2)).
Proof.
  unfold stageElement, elementWrites.
  destruct (isAugmentedData dataElt) as [[|]|]; cbn [mbind option_bind]; [|done..].
  destruct (iterate (member dataElt "data")) as [data|]; cbn [mbind option_bind]; [|done].
  by rewrite fold_stageDatum.
Qed.

Lemma dataWrites_cons dataElt data :
  dataWrites dataToKey (dataElt :: data) =
  (writes ← elementWrites dataToKey dataElt;
   writes' ← dataWrites dataToKey data; Some (writes ++ writes')).
Proof.
  unfold dataWrites. cbn [mapM].
  destruct (elementWrites dataToKey dataElt) as [ws|]; cbn; [|done].
  by destruct (mapM (elementWrites dataToKey) data).
Qed.

Lemma stageData_writes data (st : staging) :
  stageData dataToKey data st =
  (writes ← dataWrites dataToKey data; Some (assign writes st.1, markKeys writes st.2)).
Proof.
  revert st. induction data as [|dataElt data IH]; intros st.
  - by destruct st.
  - cbn [stageData]. rewrite stageElement_writes, dataWrites_cons.
    destruct (elementWrites dataToKey dataElt) as [ws|]; cbn [mbind option_bind]; [|done].
    rewrite IH. destruct (dataWrites dataToKey data) as [ws'|]; cbn [mbind option_bind fst snd]; [|done].
    by rewrite assign_app, markKeys_app.
Qed.

Lemma fold_stageAbsent flags queries toMerge :
  fold_left (stageAbsent queryToKey flags) queries toMerge =
  assign (absentWrites queryToKey flags queries) toMerge.
Proof.
  revert toMerge. induction queries as [|q qs IH]; intros toMerge; [done|].
  cbn [fold_left]. rewrite IH. unfold absentWrites, stageAbsent. cbn [List.filter].
  by destruct (negb (flagged flags (queryToKey q))).
Qed.

Lemma putData_toMerge_writes queries data :
  putData_toMerge queryToKey dataToKey queries data =
  (writes ← dataWrites dataToKey data;
   Some (assign (writes ++ absentWrites queryToKey (markKeys writes ∅) queries) [])).
Proof.
  unfold putData_toMerge. rewrite stageData_writes.
  destruct (dataWrites dataToKey data) as [ws|]; cbn [mbind option_bind fst snd]; [|done].
  by rewrite fold_stageAbsent, assign_app.
Qed.

Lemma last_write_absentWrites flags queries key :
  last_write key (absentWrites queryToKey flags queries) =
  if decide (key ∈ batchKeys queryToKey queries)
  then (if flagged flags key then None else Some (complete VNull))
  else None.
Proof.
  unfold absentWrites.
  rewrite (last_write_const queryToKey (complete VNull)).
  unfold batchKeys.
  destruct (decide (key ∈ map queryToKey queries)) as [Hin|Hin].
  - destruct (flagged flags key) eqn:Hflag.
    + rewrite decide_False; [done|].
      intros (q & -> & Hq%list_elem_of_In%filter_In)%list_elem_of_fmap.
      destruct Hq as [_ Hq]. by rewrite Hflag in Hq.
    + rewrite decide_True; [done|].
      apply list_elem_of_fmap in Hin as (q & -> & Hq).
      apply list_elem_of_fmap. exists q. split; [done|].
      apply list_elem_of_In, filter_In. split; [by apply list_elem_of_In|by rewrite Hflag].
  - rewrite decide_False; [done|].
    intros (q & -> & Hq%list_elem_of_In%filter_In)%list_elem_of_fmap.
    apply Hin, list_elem_of_fmap. exists q. split; [done|]. apply list_elem_of_In, Hq.
Qed.

(** What [putData] has staged under a key when it reaches [updateCache]: the
    last datum with that key, or else the marker if the key was asked for. *)
Lemma last_write_putData_toMerge queries data writes toMerge key :
  dataWrites dataToKey data = Some writes ->
  putData_toMerge queryToKey dataToKey queries data = Some toMerge ->
  last_write key toMerge =
  match last_write key writes with
  | Some entry => Some entry
  | None => if decide (key ∈ batchKeys queryToKey queries)
            then Some (complete VNull) else None
  end.
Proof.
  intros Hws. rewrite putData_toMerge_writes, Hws. cbn [mbind option_bind].
  intros [= <-]. rewrite last_write_assign_nil, last_write_app, last_write_absentWrites.
  rewrite flagged_markKeys, flagged_empty. cbn [orb].
  destruct (last_write key writes) as [entry|] eqn:Hlast.
  - assert (key ∈ writes.*1) as Hin.
    { destruct (decide (key ∈ writes.*1)) as [|Hn]; [done|].
      apply last_write_None in Hn. congruence. }
    rewrite bool_decide_eq_true_2 by done. by case_decide.
  - apply last_write_None in Hlast. rewrite bool_decide_eq_false_2 by done. by case_decide.
Qed.

Lemma isAugmentedData_has_member dataElt :
  dataElt <> VNull -> dataElt <> VUndefined ->
  has_member dataElt "hasOwnProperty" = false ->
  isAugmentedData dataElt = Some (has_member dataElt "meta").
Proof. destruct dataElt; try done. cbn. by intros _ _ ->. Qed.

Lemma elementWrites_shape dataElt writes k v :
  elementWrites dataToKey dataElt = Some writes -> (k, v) ∈ writes ->
  (exists datum, v = complete datum /\ k = dataToKey datum VUndefined)
  \/ (exists datum meta, v = complete_with_meta datum meta /\ k = dataToKey datum meta).
Proof.
  unfold elementWrites.
  destruct (isAugmentedData dataElt) as [[|]|]; cbn [mbind option_bind]; [| |done].
  - destruct (iterate (member dataElt "data")) as [data|]; cbn [mbind option_bind]; [|done].
    intros [= <-] (datum & [= -> ->] & _)%list_elem_of_fmap. right. eauto.
  - intros [= <-] [= -> ->]%list_elem_of_singleton. left. eauto.
Qed.

Lemma dataWrites_shape data writes k v :
  dataWrites dataToKey data = Some writes -> (k, v) ∈ writes ->
  (exists datum, v = complete datum /\ k = dataToKey datum VUndefined)
  \/ (exists datum meta, v = complete_with_meta datum meta /\ k = dataToKey datum meta).
Proof.
  revert writes. induction data as [|dataElt data IH]; intros writes.
  - intros [= <-] ?%elem_of_nil. done.
  - rewrite dataWrites_cons.
    destruct (elementWrites dataToKey dataElt) as [ws|] eqn:Helt; cbn [mbind option_bind]; [|done].
    destruct (dataWrites dataToKey data) as [ws'|]; cbn [mbind option_bind]; [|done].
    intros [= <-] [Hin|Hin]%elem_of_app.
    + by eapply elementWrites_shape.
    + by eapply IH.
Qed.

Lemma shape_staged_entry k v :
  (exists datum, v = complete datum /\ k = dataToKey datum VUndefined)
  \/ (exists datum meta, v = complete_with_meta datum meta /\ k = dataToKey datum meta) ->
  staged_entry v /\ is_complete v.
Proof. intros [(d & -> & _)|(d & m & -> & _)]; split; by constructor. Qed.






(** C6: after a successful merge of a fetch result, a key of the batch under
    which no returned datum was staged holds an entry that is complete with
    null data.  The key is therefore present in the snapshot, unlike a key
    that was never asked for, and its entry is not an error. *)
Theorem absent_keys_marked (c : cache_state) (queries : list Query) (data : list value)
        (writes : list (string * value)) (query : Query) :
  dataWrites dataToKey data = Some writes ->
  query ∈ queries ->
  queryToKey query ∉ writes.*1 ->
  exists c' entry,
    putData queryToKey dataToKey c queries data = Some c'
    /\ get_own (queryToKey query) (_cache c') = Some entry
    /\ peek queryToKey c' query = Data entry
    /\ is_complete entry
    /\ member entry "data" = VNull
    /\ ~ is_error entry.
Proof.
  intros Hws Hin Hkey.
  destruct (putData_toMerge queryToKey dataToKey queries data) as [toMerge|] eqn:HtoMerge;
    [|by rewrite putData_toMerge_writes, Hws in HtoMerge].
  pose proof (last_write_putData_toMerge _ _ _ _ (queryToKey query) Hws HtoMerge) as Hlast.
  apply last_write_None in Hkey. rewrite Hkey in Hlast.
  rewrite decide_True in Hlast by by apply elem_of_batchKeys.
  exists (updateCache c toMerge), (newValue (prop (_cache c) (queryToKey query)) (complete VNull)).
  assert (get_own (queryToKey query) (_cache (updateCache c toMerge))
          = Some (newValue (prop (_cache c) (queryToKey query)) (complete VNull))) as Hget.
  { by rewrite get_own_updateCache, Hlast. }
  assert (is_complete (newValue (prop (_cache c) (queryToKey query)) (complete VNull))) as Hc.
  { unfold is_complete. by rewrite staged_entry_status by constructor. }
  split_and!.
  - unfold putData. by rewrite HtoMerge.
  - done.
  - apply peek_entry; [done|apply isMergableObject_newValue].
  - done.
  - apply merged_absent_data.
  - unfold is_error. unfold is_complete in Hc. by rewrite Hc.
Qed.




(** *** The shape of the snapshot *)

Lemma entries_ok_updateCache c toMerge :
  entries_ok (_cache c) ->
  (forall k v, (k, v) ∈ toMerge -> staged_entry v) ->
  entries_ok (_cache (updateCache c toMerge)).
Proof.
  intros Hok Hstaged key entry. rewrite get_own_updateCache.
  destruct (last_write key toMerge) as [v|] eqn:Hlast; [|apply Hok].
  intros [= <-].
  pose proof (Hstaged _ _ (last_write_elem_of _ _ _ Hlast)) as Hv.
  split.
  - destruct Hv; apply isMergableObject_newValue.
  - unfold is_error. rewrite staged_entry_status by done.
    destruct Hv; [done|done|]. intros _. apply merged_error_data.
Qed.

Lemma staged_markError_toMerge queries k v :
  (k, v) ∈ markError_toMerge queryToKey queries -> staged_entry v.
Proof.
  rewrite markError_toMerge_assign.
  intros [(q & [= -> ->] & _)%list_elem_of_fmap|?%elem_of_nil]%elem_of_assign; [|done].
  constructor.
Qed.

Lemma addData_toMerge_assign data meta :
  addData_toMerge dataToKey data meta =
  assign (map (fun datum => (dataToKey datum meta, complete datum)) data) [].
Proof. apply (fold_set_own_assign (fun datum => dataToKey datum meta) complete). Qed.

Lemma staged_addData_toMerge data meta k v :
  (k, v) ∈ addData_toMerge dataToKey data meta -> staged_entry v.
Proof.
  rewrite addData_toMerge_assign.
  intros [(d & [= -> ->] & _)%list_elem_of_fmap|?%elem_of_nil]%elem_of_assign; [|done].
  constructor.
Qed.

Lemma staged_putData_toMerge queries data toMerge k v :
  putData_toMerge queryToKey dataToKey queries data = Some toMerge ->
  (k, v) ∈ toMerge -> staged_entry v.
Proof.
  rewrite putData_toMerge_writes.
  destruct (dataWrites dataToKey data) as [ws|] eqn:Hws; cbn [mbind option_bind]; [|done].
  intros [= <-] [[Hin|Hin]%elem_of_app|?%elem_of_nil]%elem_of_assign; [| |done].
  - by apply (shape_staged_entry k), (dataWrites_shape data ws).
  - unfold absentWrites in Hin. apply list_elem_of_fmap in Hin as (q & [= -> ->] & _).
    constructor.
Qed.

Lemma entries_ok_markError c missing :
  entries_ok (_cache c) -> entries_ok (_cache (markError queryToKey c missing)).
Proof. intros H. apply entries_ok_updateCache; [done|]. apply staged_markError_toMerge. Qed.

Lemma entries_ok_populate_resolved c missing data :
  entries_ok (_cache c) ->
  entries_ok (_cache (populate_resolved queryToKey dataToKey c missing data).1).
Proof.
  intros H. unfold populate_resolved, putData.
  destruct (putData_toMerge queryToKey dataToKey missing data) as [toMerge|] eqn:HtoMerge;
    cbn [mbind option_bind fst unmarkPending populate_rejected _cache].
  - apply entries_ok_updateCache; [done|]. intros k v.
    by apply (staged_putData_toMerge missing data).
  - by apply entries_ok_markError.
Qed.

Lemma entries_ok_step s e s' :
  entries_ok (_cache (this s)) ->
  step queryToKey dataToKey s e = Some s' ->
  entries_ok (_cache (this s')).
Proof.
  intros Hok. destruct e as [q|data meta| |n data|n]; cbn [step].
  - by intros [= <-].
  - intros [= <-]. cbn [this]. apply entries_ok_updateCache; [done|].
    apply staged_addData_toMerge.
  - destruct (AccumulatingDebounce.timer_fires (debouncedPopulate s)) as [[queryMap idle]|];
      cbn [mbind option_bind]; [|done].
    intros [= <-]. cbn [flush this fst snd]. unfold populate_begin.
    by destruct (length (getMissing queryToKey (this s) (queriesOf queryMap)) =? 0)%nat.
  - unfold settle. destruct (in_flight s !! n) as [missing|]; cbn; [|done].
    intros [= <-]. cbn [this]. by apply entries_ok_populate_resolved.
  - unfold settle. destruct (in_flight s !! n) as [missing|]; cbn; [|done].
    intros [= <-]. cbn [this]. by apply entries_ok_markError.
Qed.

Lemma entries_ok_run events s s' :
  entries_ok (_cache (this s)) ->
  run queryToKey dataToKey s events = Some s' ->
  entries_ok (_cache (this s')).
Proof.
  revert s. induction events as [|e events IH]; intros s Hok; cbn [run].
  - by intros [= <-].
  - destruct (step queryToKey dataToKey s e) as [s1|] eqn:Hstep; cbn [mbind option_bind]; [|done].
    apply IH. by eapply entries_ok_step.
Qed.

Lemma entries_ok_reachable s :
  reachable queryToKey dataToKey s -> entries_ok (_cache (this s)).
Proof.
  intros [events Hrun]. eapply entries_ok_run; [|exact Hrun].
  by intros key entry.
Qed.

(** C2, as the code has it: in every reachable snapshot an entry that reads
    as an error has null data.  The deep merge keeps the fields that the
    error entry does not have, so a key that [markError] marks carries
    metadata afterwards exactly when its entry carried metadata before. *)
Theorem error_entries_have_null_data (s : system) :
  reachable queryToKey dataToKey s ->
  (forall key entry,
      get_own key (_cache (this s)) = Some entry ->
      is_error entry -> member entry "data" = VNull)
  /\ (forall missing query,
      query ∈ missing ->
      let before := prop (_cache (this s)) (queryToKey query) in
      let after := prop (_cache (markError queryToKey (this s) missing)) (queryToKey query) in
      is_error after
      /\ has_member after "meta" = has_member before "meta"
      /\ member after "meta" = member before "meta").
Proof.
  intros Hreach. split.
  - intros key entry Hget Herr. by apply (entries_ok_reachable s Hreach key entry).
  - intros missing query Hin before after.
    assert (after = newValue before error) as ->.
    { subst after before. unfold prop at 1. rewrite get_own_markError.
      rewrite decide_True; [done|by apply elem_of_batchKeys]. }
    split_and!.
    + unfold is_error. by rewrite staged_entry_status by constructor.
    + unfold error. by rewrite has_member_newValue by apply NoDup_keys_error.
    + by apply merged_error_other_field.
Qed.

(** *** [getMissing] *)

Lemma flagged_true flags key : flagged flags key = true <-> flags !! key = Some true.
Proof. unfold flagged. destruct (flags !! key) as [[|]|]; naive_solver. Qed.

Lemma inherits_app names1 names2 key :
  inherits (names1 ++ names2) key = inherits names1 key || inherits names2 key.
Proof. apply existsb_app. Qed.

Lemma inherits_true names key : inherits names key = true <-> key ∈ names.
Proof.
  unfold inherits. rewrite existsb_exists. split.
  - intros (name & Hin & ->%String.eqb_eq). by apply list_elem_of_In.
  - intros Hin. exists key. split; [by apply list_elem_of_In|apply String.eqb_refl].
Qed.

Lemma inherits_false names key : inherits names key = false <-> key ∉ names.
Proof. rewrite <- not_true_iff_false. by rewrite inherits_true. Qed.

Lemma snapshot_members_prototype key :
  inherits snapshot_members key = false -> inherits Object_prototype key = false.
Proof.
  unfold snapshot_members. rewrite inherits_app. by intros [_ ?]%orb_false_iff.
Qed.

Lemma snapshot_members_methods key :
  inherits snapshot_members key = false -> inherits Immutable_methods key = false.
Proof.
  unfold snapshot_members. rewrite inherits_app. by intros [? _]%orb_false_iff.
Qed.

Lemma truthy_flag_flagged flags key :
  inherits Object_prototype key = false -> truthy_flag flags key = flagged flags key.
Proof. intros H. unfold truthy_flag, flagged. by destruct (flags !! key); [|rewrite H]. Qed.

Lemma truthy_flag_own flags key b :
  flags !! key = Some b -> truthy_flag flags key = b.
Proof. intros H. unfold truthy_flag. by rewrite H. Qed.

Lemma missing_test c key :
  entries_ok (_cache c) ->
  negb (truthy_read (read snapshot_members (_cache c) key))
  && negb (truthy_flag (pending c) key) = true
  <-> get_own key (_cache c) = None
      /\ inherits snapshot_members key = false
      /\ pending c !! key <> Some true.
Proof.
  intros Hok. rewrite andb_true_iff, !negb_true_iff. unfold read.
  destruct (get_own key (_cache c)) as [entry|] eqn:Hget.
  - destruct (Hok key entry Hget) as [Hobj _]. cbn [truthy_read].
    rewrite truthy_mergable by done. split; [by intros [? _]|by intros [? _]].
  - destruct (inherits snapshot_members key) eqn:Hin; cbn [truthy_read truthy].
    + split; [by intros [? _]|by intros (_ & ? & _)].
    + rewrite truthy_flag_flagged by by apply snapshot_members_prototype.
      rewrite <- (not_true_iff_false (flagged _ _)), flagged_true.
      split; [by intros [_ ?]|by intros (_ & _ & ?)].
Qed.

Lemma getMissing_filter c queries :
  entries_ok (_cache c) ->
  getMissing queryToKey c queries
  = filter (fun query =>
              get_own (queryToKey query) (_cache c) = None
              /\ inherits snapshot_members (queryToKey query) = false
              /\ pending c !! queryToKey query <> Some true) queries.
Proof.
  intros Hok. unfold getMissing. induction queries as [|q qs IH]; [done|].
  cbn [List.filter]. rewrite filter_cons, IH.
  pose proof (missing_test c (queryToKey q) Hok) as Htest.
  destruct (negb (truthy_read (read snapshot_members (_cache c) (queryToKey q)))
            && negb (truthy_flag (pending c) (queryToKey q))).
  - rewrite decide_True; [done|by apply Htest].
  - rewrite decide_False; [done|]. intros H. apply Htest in H. done.
Qed.

(** C8, as the code has it: [cache[key]] and [pending[key]] are property
    reads, which see the members every object inherits and the methods of the
    snapshot.  In every reachable state [getMissing] returns, in their order,
    the queries whose key has no entry in the snapshot, is not the name of
    such a member, and is not marked pending.  A key that holds an error
    entry has an entry, so its queries are left out; so are the queries whose
    key is the name of an inherited member, although the snapshot has no
    entry for it. *)
Theorem getMissing_filters (s : system) (queries : list Query) :
  reachable queryToKey dataToKey s ->
  getMissing queryToKey (this s) queries
  = filter (fun query =>
              get_own (queryToKey query) (_cache (this s)) = None
              /\ inherits snapshot_members (queryToKey query) = false
              /\ pending (this s) !! queryToKey query <> Some true) queries
  /\ getMissing queryToKey (this s) queries `sublist_of` queries
  /\ (forall query entry,
      get_own (queryToKey query) (_cache (this s)) = Some entry ->
      is_error entry ->
      query ∉ getMissing queryToKey (this s) queries)
  /\ (forall query,
      queryToKey query ∈ snapshot_members ->
      query ∉ getMissing queryToKey (this s) queries)
  /\ (forall query,
      query ∈ queries ->
      queryToKey query ∉ snapshot_members ->
      (query ∈ getMissing queryToKey (this s) queries
       <-> get_own (queryToKey query) (_cache (this s)) = None
           /\ pending (this s) !! queryToKey query <> Some true)).
Proof.
  intros Hok%entries_ok_reachable.
  pose proof (getMissing_filter (this s) queries Hok) as Heq.
  split_and!.
  - done.
  - rewrite Heq. apply sublist_filter.
  - intros query entry Hget _. rewrite Heq.
    intros [[Hnone _] _]%list_elem_of_filter. congruence.
  - intros query Hin. rewrite Heq.
    intros [(_ & Hout%inherits_false & _) _]%list_elem_of_filter. done.
  - intros query Hin Hout%inherits_false. rewrite Heq, list_elem_of_filter.
    split; [by intros [(? & _ & ?) _]|by intros [? ?]].
Qed.

(** *** [addData] *)

(** C4, on the code: [addData([datum], meta)] makes [peek] return the
    complete entry with the datum for a key that had no entry, and calls no
    fetch, but the entry it stages has no [meta] field: the metadata is used
    for the key and not stored. *)
Theorem addData_drops_meta (s : system) (datum meta : value) (query : Query) :
  queryToKey query = dataToKey datum meta ->
  get_own (queryToKey query) (_cache (this s)) = None ->
  exists s',
    step queryToKey dataToKey s (AddData [datum] meta) = Some s'
    /\ fetch_calls s' = fetch_calls s
    /\ in_flight s' = in_flight s
    /\ (exists entry,
          peek queryToKey (this s') query = Data entry
          /\ entry = complete datum
          /\ is_complete entry
          /\ member entry "data" = datum
          /\ has_member entry "meta" = false)
    /\ (meta <> VUndefined ->
        ~ addData_carries_meta queryToKey dataToKey (this s) datum meta query).
Proof.
  intros Hkey Hnone.
  assert (peek queryToKey (addData dataToKey (this s) [datum] meta) query
          = Data (complete datum)) as Hpeek.
  { apply peek_entry; [|done]. unfold addData.
    rewrite get_own_updateCache, last_write_NoDup
      by (rewrite addData_toMerge_assign; apply NoDup_keys_assign, NoDup_nil_2).
    cbn [addData_toMerge fold_left set_own get_own]. rewrite <- Hkey, eqb_eq_true.
    unfold prop. rewrite Hnone. cbn [default]. by rewrite newValue_undefined. }
  eexists. split_and!; [reflexivity|done|done| |].
  { exists (complete datum). by split_and!. }
  intros Hmeta Hclaim. destruct (Hclaim Hkey) as (entry & Hentry & _ & _ & Hm).
  rewrite Hpeek in Hentry. injection Hentry as <-. by apply Hmeta.
Qed.

(** *** The debounce window *)

Lemma run_app s events1 events2 :
  run queryToKey dataToKey s (events1 ++ events2) =
  (s' ← run queryToKey dataToKey s events1; run queryToKey dataToKey s' events2).
Proof.
  revert s. induction events1 as [|e events1 IH]; intros s; [done|].
  cbn [app run]. destruct (step queryToKey dataToKey s e); cbn [mbind option_bind]; [|done].
  apply IH.
Qed.

Lemma run_gets s acc queries :
  debouncedPopulate s = AccumulatingDebounce.Accumulating acc ->
  run queryToKey dataToKey s (map Get queries) =
  Some {| this := this s;
          debouncedPopulate :=
            AccumulatingDebounce.Accumulating (fold_left (accumulateQuery queryToKey) queries acc);
          in_flight := in_flight s; flushed := flushed s; fetch_calls := fetch_calls s |}.
Proof.
  revert s acc. induction queries as [|q qs IH]; intros s acc Hd.
  - cbn. rewrite <- Hd. by destruct s.
  - cbn [map run step get fst mbind option_bind]. rewrite Hd. cbn [AccumulatingDebounce.call].
    by rewrite (IH _ (accumulateQuery queryToKey acc q)).
Qed.

Lemma run_gets_idle s query queries :
  debouncedPopulate s = AccumulatingDebounce.Idle ->
  run queryToKey dataToKey s (map Get (query :: queries)) =
  Some {| this := this s;
          debouncedPopulate :=
            AccumulatingDebounce.Accumulating
              (fold_left (accumulateQuery queryToKey) (query :: queries) []);
          in_flight := in_flight s; flushed := flushed s; fetch_calls := fetch_calls s |}.
Proof.
  intros Hd. cbn [map run step get fst mbind option_bind]. rewrite Hd.
  cbn [AccumulatingDebounce.call emptyQueryMap].
  by rewrite (run_gets _ (accumulateQuery queryToKey [] query)).
Qed.

(** The accumulator object: reads, writes and the order of its keys. *)
Lemma own_store {A : Type} (queryMap : list (string * A)) key key' (x : A) :
  own key (store key' x queryMap) = if String.eqb key' key then Some x else own key queryMap.
Proof.
  induction queryMap as [|[k y] queryMap IH]; cbn [store own]; [done|].
  destruct (String.eqb_spec k key') as [->|Hk]; cbn [own].
  - by destruct (String.eqb key' key).
  - rewrite IH. destruct (String.eqb_spec k key) as [->|]; [|done].
    by rewrite eqb_neq_false by done.
Qed.

Lemma own_Some {A : Type} (queryMap : list (string * A)) key (x : A) :
  own key queryMap = Some x -> (key, x) ∈ queryMap.
Proof.
  induction queryMap as [|[k y] queryMap IH]; cbn [own]; [done|].
  destruct (String.eqb_spec k key) as [->|].
  - intros [= ->]. apply elem_of_cons. by left.
  - intros H. apply elem_of_cons. right. by apply IH.
Qed.

Lemma own_None {A : Type} (queryMap : list (string * A)) key :
  own key queryMap = None <-> key ∉ map fst queryMap.
Proof.
  induction queryMap as [|[k y] queryMap IH]; cbn [own map fst].
  - split; [intros _; apply not_elem_of_nil|done].
  - rewrite not_elem_of_cons. destruct (String.eqb_spec k key) as [->|Hk].
    + split; [done|by intros [? _]].
    + rewrite IH. split; [by split|by intros [_ ?]].
Qed.

Lemma own_NoDup {A : Type} (queryMap : list (string * A)) key (x : A) :
  NoDup (map fst queryMap) -> (key, x) ∈ queryMap -> own key queryMap = Some x.
Proof.
  induction queryMap as [|[k y] queryMap IH]; cbn [own map fst].
  - by intros _ ?%elem_of_nil.
  - intros [Hk Hnd]%NoDup_cons [[= -> ->]|Hin]%elem_of_cons.
    + by rewrite eqb_eq_true.
    + destruct (String.eqb_spec k key) as [->|]; [|by apply IH].
      exfalso. apply Hk. apply list_elem_of_fmap. by exists (key, x).
Qed.

Lemma keys_store {A : Type} (queryMap : list (string * A)) key (x : A) :
  map fst (store key x queryMap)
  = match own key queryMap with
    | Some _ => map fst queryMap
    | None => map fst queryMap ++ [key]
    end.
Proof.
  induction queryMap as [|[k y] queryMap IH]; cbn [store own map fst app]; [done|].
  destruct (String.eqb_spec k key) as [->|Hk]; cbn [map fst]; [done|].
  rewrite IH. by destruct (own key queryMap).
Qed.

Lemma store_store {A : Type} (queryMap : list (string * A)) key (x y : A) :
  store key y (store key x queryMap) = store key y queryMap.
Proof.
  induction queryMap as [|[k z] queryMap IH]; cbn [store].
  - by rewrite eqb_eq_true.
  - destruct (String.eqb_spec k key) as [->|Hk]; cbn [store].
    + by rewrite eqb_eq_true.
    + rewrite eqb_neq_false by done. by rewrite IH.
Qed.

Lemma latest_key key queries query :
  latest queryToKey key queries = Some query -> queryToKey query = key /\ query ∈ queries.
Proof.
  induction queries as [|q qs IH]; cbn [latest]; [done|].
  destruct (latest queryToKey key qs) as [q'|].
  - intros [= ->]. destruct IH as [? ?]; [done|]. split; [done|]. apply elem_of_cons; by right.
  - destruct (String.eqb_spec (queryToKey q) key) as [<-|]; [|done].
    intros [= ->]. split; [done|]. apply elem_of_cons; by left.
Qed.

Lemma latest_is_Some key queries :
  key ∈ batchKeys queryToKey queries -> is_Some (latest queryToKey key queries).
Proof.
  unfold batchKeys. induction queries as [|q qs IH]; cbn [map latest].
  - by intros ?%elem_of_nil.
  - intros [->|Hin]%elem_of_cons.
    + destruct (latest queryToKey (queryToKey q) qs); [done|]. by rewrite eqb_eq_true.
    + destruct (IH Hin) as [q' ->]. done.
Qed.

Lemma own_accumulated queries (queryMap : list (string * Query)) key :
  own key (fold_left (accumulateQuery queryToKey) queries queryMap) =
  match latest queryToKey key queries with
  | Some query => if String.eqb key "__proto__" then own key queryMap else Some query
  | None => own key queryMap
  end.
Proof.
  revert queryMap. induction queries as [|q qs IH]; intros queryMap; [done|].
  cbn [fold_left latest]. rewrite IH.
  destruct (latest queryToKey key qs) as [q'|].
  - destruct (String.eqb_spec key "__proto__") as [->|Hproto]; [|done].
    unfold accumulateQuery. destruct (String.eqb_spec (queryToKey q) "__proto__"); [done|].
    rewrite own_store. by rewrite eqb_neq_false.
  - unfold accumulateQuery. destruct (String.eqb_spec (queryToKey q) key) as [<-|Hne].
    + destruct (String.eqb (queryToKey q) "__proto__"); [done|].
      by rewrite own_store, eqb_eq_true.
    + destruct (String.eqb (queryToKey q) "__proto__"); [done|].
      by rewrite own_store, eqb_neq_false.
Qed.

Lemma keys_accumulated queries (queryMap : list (string * Query)) :
  map fst (fold_left (accumulateQuery queryToKey) queries queryMap)
  = map fst queryMap
    ++ firstSeen ("__proto__" :: map fst queryMap) (batchKeys queryToKey queries).
Proof.
  revert queryMap. induction queries as [|q qs IH]; intros queryMap.
  - cbn. by rewrite app_nil_r.
  - cbn [fold_left batchKeys map firstSeen]. rewrite IH. unfold accumulateQuery.
    cbn [inherits existsb].
    destruct (String.eqb (queryToKey q) "__proto__"); cbn [orb]; [done|].
    rewrite keys_store.
    destruct (own (queryToKey q) queryMap) as [x|] eqn:Hown.
    + assert (existsb (String.eqb (queryToKey q)) (map fst queryMap) = true) as ->; [|done].
      apply (inherits_true (map fst queryMap)). apply own_Some in Hown.
      apply list_elem_of_fmap. by exists (queryToKey q, x).
    + assert (existsb (String.eqb (queryToKey q)) (map fst queryMap) = false) as ->.
      { apply (inherits_false (map fst queryMap)). by apply own_None. }
      by rewrite <- app_assoc.
Qed.

Lemma firstSeen_spec seen ks key :
  key ∈ firstSeen seen ks <-> key ∈ ks /\ key ∉ seen.
Proof.
  revert seen. induction ks as [|k ks IH]; intros seen; cbn [firstSeen].
  - split; [by intros ?%elem_of_nil|by intros [?%elem_of_nil _]].
  - destruct (inherits seen k) eqn:Hin.
    + apply inherits_true in Hin. rewrite IH, elem_of_cons. split.
      * intros [? ?]. split; [by right|done].
      * intros [[->|?] ?]; [done|by split].
    + apply inherits_false in Hin.
      rewrite !elem_of_cons, IH, elem_of_app, list_elem_of_singleton.
      split.
      * intros [->|[Hks Hout]]; [by split; [left|]|].
        split; [by right|]. intros Hseen. apply Hout. by left.
      * intros [[->|?] ?]; [by left|]. destruct (decide (key = k)) as [->|]; [by left|].
        right. split; [done|]. by intros [?|?].
Qed.

Lemma NoDup_firstSeen seen ks : NoDup (firstSeen seen ks).
Proof.
  revert seen. induction ks as [|k ks IH]; intros seen; cbn [firstSeen]; [apply NoDup_nil_2|].
  destruct (inherits seen k); [apply IH|]. apply NoDup_cons. split; [|apply IH].
  rewrite firstSeen_spec, elem_of_app, list_elem_of_singleton.
  intros [_ Hout]. apply Hout. by right.
Qed.

Lemma insertIndex_Permutation n key sorted :
  insertIndex n key sorted ≡ₚ (n, key) :: sorted.
Proof.
  induction sorted as [|[m k] sorted IH]; cbn [insertIndex]; [done|].
  destruct (n <=? m)%N; [done|]. rewrite IH. apply perm_swap.
Qed.

Lemma indexKeys_Permutation ks :
  map snd (indexKeys ks) ≡ₚ List.filter isArrayIndex ks.
Proof.
  unfold indexKeys, isArrayIndex. induction ks as [|k ks IH]; cbn [foldr List.filter]; [done|].
  destruct (arrayIndex k) as [n|]; [|done].
  rewrite insertIndex_Permutation. cbn [map snd]. by rewrite IH.
Qed.

Lemma indexKeys_index ks n key : (n, key) ∈ indexKeys ks -> arrayIndex key = Some n.
Proof.
  unfold indexKeys. induction ks as [|k ks IH]; cbn [foldr]; [by intros ?%elem_of_nil|].
  destruct (arrayIndex k) as [m|] eqn:Hk; [|done].
  rewrite insertIndex_Permutation. by intros [[= -> ->]|Hin]%elem_of_cons; [|apply IH].
Qed.

Lemma insertIndex_sorted n key sorted :
  StronglySorted (fun x y => (x.1 <= y.1)%N) sorted ->
  StronglySorted (fun x y => (x.1 <= y.1)%N) (insertIndex n key sorted).
Proof.
  induction sorted as [|[m k] sorted IH]; cbn [insertIndex].
  - intros _. apply StronglySorted_cons. split; [apply Forall_nil_2|constructor].
  - intros [Hall Hsorted]%StronglySorted_cons.
    destruct (N.leb_spec n m) as [Hle|Hlt]; apply StronglySorted_cons.
    + split; [|by apply StronglySorted_cons].
      apply Forall_cons. split; [done|].
      eapply Forall_impl; [exact Hall|]. intros [m' k'] Hm. cbn in *. lia.
    + split; [|by apply IH]. rewrite insertIndex_Permutation.
      apply Forall_cons. split; [cbn; lia|done].
Qed.

Lemma indexKeys_sorted ks : StronglySorted indexLe (map snd (indexKeys ks)).
Proof.
  assert (StronglySorted (fun x y => (x.1 <= y.1)%N) (indexKeys ks)) as Hsorted.
  { unfold indexKeys. induction ks as [|k ks IH]; cbn [foldr]; [constructor|].
    destruct (arrayIndex k); [by apply insertIndex_sorted|done]. }
  assert (forall x, x ∈ indexKeys ks -> arrayIndex x.2 = Some x.1) as Hindex.
  { intros [n key]. apply indexKeys_index. }
  induction (indexKeys ks) as [|[n key] l IH]; cbn [map snd]; [constructor|].
  apply StronglySorted_cons in Hsorted as [Hall Hsorted].
  apply StronglySorted_cons. split.
  - apply Forall_fmap, Forall_forall. intros [m k] Hin. cbn.
    exists n, m. split_and!.
    + apply (Hindex (n, key)), elem_of_cons. by left.
    + apply (Hindex (m, k)), elem_of_cons. by right.
    + rewrite Forall_forall in Hall. apply (Hall (m, k) Hin).
  - apply IH; [done|]. intros x Hx. apply Hindex, elem_of_cons. by right.
Qed.

Lemma filter_Permutation {A : Type} (f : A -> bool) (l : list A) :
  List.filter f l ++ List.filter (fun x => negb (f x)) l ≡ₚ l.
Proof.
  induction l as [|x l IH]; cbn [List.filter]; [done|].
  destruct (f x); cbn [negb app].
  - by rewrite IH.
  - rewrite <- Permutation_middle. by rewrite IH.
Qed.

Lemma objectKeys_Permutation ks : objectKeys ks ≡ₚ ks.
Proof.
  unfold objectKeys. rewrite indexKeys_Permutation. apply filter_Permutation.
Qed.

Lemma filter_all {A : Type} (f : A -> bool) (l : list A) :
  (forall x, x ∈ l -> f x = true) -> List.filter f l = l.
Proof.
  induction l as [|x l IH]; intros Hall; cbn [List.filter]; [done|].
  rewrite Hall by (apply elem_of_cons; by left).
  rewrite IH; [done|]. intros y Hy. apply Hall, elem_of_cons. by right.
Qed.

Lemma objectKeys_creation_order ks :
  (forall key, key ∈ ks -> isArrayIndex key = false) -> objectKeys ks = ks.
Proof.
  intros Hall. unfold objectKeys.
  assert (indexKeys ks = []) as ->.
  { unfold indexKeys. induction ks as [|k ks IH]; cbn [foldr]; [done|].
    rewrite IH by (intros key Hk; apply Hall, elem_of_cons; by right).
    pose proof (Hall k ltac:(apply elem_of_cons; by left)) as Hk.
    unfold isArrayIndex in Hk. by destruct (arrayIndex k). }
  cbn [map app]. apply filter_all. intros key Hk. by rewrite Hall.
Qed.

Lemma batchKeys_omap_own (queryMap : list (string * Query)) ks :
  (forall key query, (key, query) ∈ queryMap -> queryToKey query = key) ->
  (forall key, key ∈ ks -> key ∈ map fst queryMap) ->
  batchKeys queryToKey (omap (fun key => own key queryMap) ks) = ks.
Proof.
  intros Hkeys. unfold batchKeys.
  induction ks as [|k ks IH]; intros Hin; cbn [omap list_omap map]; [done|].
  destruct (own k queryMap) as [q|] eqn:Hown.
  - cbn [map]. rewrite (Hkeys k q) by by apply own_Some.
    f_equal. apply IH. intros key Hk. apply Hin, elem_of_cons. by right.
  - exfalso. apply own_None in Hown. apply Hown, Hin, elem_of_cons. by left.
Qed.

Lemma batchKeys_queriesOf (queryMap : list (string * Query)) :
  (forall key query, (key, query) ∈ queryMap -> queryToKey query = key) ->
  batchKeys queryToKey (queriesOf queryMap) = objectKeys (map fst queryMap).
Proof.
  intros Hkeys. unfold queriesOf. apply batchKeys_omap_own; [done|].
  intros key Hin. by rewrite objectKeys_Permutation in Hin.
Qed.

Lemma elem_of_queriesOf (queryMap : list (string * Query)) query :
  query ∈ queriesOf queryMap <-> exists key, own key queryMap = Some query.
Proof.
  unfold queriesOf. rewrite list_elem_of_omap. split.
  - intros (key & _ & Hown). by exists key.
  - intros [key Hown]. exists key. split; [|done].
    rewrite objectKeys_Permutation. apply own_Some in Hown.
    apply list_elem_of_fmap. by exists (key, query).
Qed.

Lemma omap_ext_elem_of {A B : Type} (f g : A -> option B) (l : list A) :
  (forall x, x ∈ l -> f x = g x) -> omap f l = omap g l.
Proof.
  induction l as [|x l IH]; intros Hall; [done|]. csimpl.
  rewrite (Hall x) by (apply elem_of_cons; by left).
  rewrite IH; [done|]. intros y Hy. apply Hall, elem_of_cons. by right.
Qed.

Lemma filter_none {A : Type} (P : A -> Prop) `{!forall x, Decision (P x)} (l : list A) :
  (forall x, x ∈ l -> ~ P x) -> filter P l = [].
Proof.
  induction l as [|x l IH]; intros Hall; [done|].
  rewrite filter_cons, decide_False by (apply Hall, elem_of_cons; by left).
  apply IH. intros y Hy. apply Hall, elem_of_cons. by right.
Qed.

Lemma queriesOf_accumulated queries :
  queriesOf (fold_left (accumulateQuery queryToKey) queries [])
  = omap (fun key => latest queryToKey key queries)
         (objectKeys (firstSeen ["__proto__"] (batchKeys queryToKey queries))).
Proof.
  unfold queriesOf. rewrite keys_accumulated. cbn [map app].
  apply omap_ext_elem_of. intros key.
  rewrite objectKeys_Permutation, firstSeen_spec, list_elem_of_singleton.
  intros [_ Hproto]. rewrite own_accumulated, eqb_neq_false by done. cbn [own].
  by destruct (latest queryToKey key queries).
Qed.

Lemma accumulated_keyed queries key query :
  (key, query) ∈ fold_left (accumulateQuery queryToKey) queries [] ->
  queryToKey query = key.
Proof.
  intros Hin.
  assert (NoDup (map fst (fold_left (accumulateQuery queryToKey) queries []))) as Hnd.
  { rewrite keys_accumulated. apply NoDup_firstSeen. }
  pose proof (own_NoDup _ _ _ Hnd Hin) as Hown. rewrite own_accumulated in Hown.
  cbn [own] in Hown. destruct (latest queryToKey key queries) as [q|] eqn:Hl; [|done].
  destruct (String.eqb key "__proto__"); [done|]. injection Hown as ->.
  by apply latest_key in Hl as [? _].
Qed.

(** C9, as the code has it: a window of [get] calls ends with one flush.
    Its batch is [Object.keys] of the accumulator mapped to the queries: the
    keys that were asked for, each once, those that are array indices first
    in ascending order and the others in the order in which they were first
    asked for, and under each key the latest query with that key
    (accumulating a query replaces an earlier one of the same key and keeps
    the place of the key).  A query with key [__proto__] is not accumulated.
    The flush calls [fetch] at most once: once, with the queries of the batch
    that [getMissing] keeps, when there are any, and not at all otherwise; in
    a reachable state there are none exactly when every key of the batch has
    an entry, is marked pending, or is the name of an inherited member. *)
Theorem window_coalesces (s : system) (queries : list Query) :
  debouncedPopulate s = AccumulatingDebounce.Idle ->
  queries <> [] ->
  exists s' (batch : list Query),
    run queryToKey dataToKey s (window queries) = Some s'
    /\ flushed s' = flushed s ++ [batch]
    /\ debouncedPopulate s' = AccumulatingDebounce.Idle
    /\ batch = omap (fun key => latest queryToKey key queries)
                    (objectKeys (firstSeen ["__proto__"] (batchKeys queryToKey queries)))
    /\ batchKeys queryToKey batch
       = objectKeys (firstSeen ["__proto__"] (batchKeys queryToKey queries))
    /\ NoDup (batchKeys queryToKey batch)
    /\ (forall query,
        query ∈ batch
        <-> queryToKey query <> "__proto__"
            /\ latest queryToKey (queryToKey query) queries = Some query)
    /\ (forall key,
        key ∈ batchKeys queryToKey queries -> key <> "__proto__" ->
        key ∈ batchKeys queryToKey batch)
    /\ ((forall key, key ∈ batchKeys queryToKey queries -> isArrayIndex key = false) ->
        batchKeys queryToKey batch = firstSeen ["__proto__"] (batchKeys queryToKey queries))
    /\ (exists indices,
          batchKeys queryToKey batch
          = indices ++ List.filter (fun key => negb (isArrayIndex key))
                                   (firstSeen ["__proto__"] (batchKeys queryToKey queries))
          /\ indices ≡ₚ List.filter isArrayIndex
                                    (firstSeen ["__proto__"] (batchKeys queryToKey queries))
          /\ StronglySorted indexLe indices)
    /\ fetch_calls s' = fetch_calls s ++
         match getMissing queryToKey (this s) batch with
         | [] => []
         | missing => [missing]
         end
    /\ (reachable queryToKey dataToKey s ->
        (fetch_calls s' = fetch_calls s
         <-> forall query,
               query ∈ batch ->
               is_Some (get_own (queryToKey query) (_cache (this s)))
               \/ queryToKey query ∈ snapshot_members
               \/ pending (this s) !! queryToKey query = Some true))
    /\ (forall (queryMap : list (string * Query)) query query',
        queryToKey query = queryToKey query' ->
        queryToKey query' <> "__proto__" ->
        accumulateQuery queryToKey (accumulateQuery queryToKey queryMap query) query'
        = accumulateQuery queryToKey queryMap query'
        /\ own (queryToKey query) (accumulateQuery queryToKey queryMap query') = Some query'
        /\ (queryToKey query' ∈ map fst queryMap ->
            map fst (accumulateQuery queryToKey queryMap query') = map fst queryMap)).
Proof.
  intros Hidle Hne. destruct queries as [|q qs]; [done|].
  set (queryMap := fold_left (accumulateQuery queryToKey) (q :: qs) []).
  assert (queriesOf queryMap
          = omap (fun key => latest queryToKey key (q :: qs))
                 (objectKeys (firstSeen ["__proto__"] (batchKeys queryToKey (q :: qs)))))
    as Hbatch by apply queriesOf_accumulated.
  assert (batchKeys queryToKey (queriesOf queryMap)
          = objectKeys (firstSeen ["__proto__"] (batchKeys queryToKey (q :: qs)))) as Hkeys.
  { rewrite batchKeys_queriesOf by apply accumulated_keyed.
    subst queryMap. by rewrite keys_accumulated. }
  assert (forall query,
             query ∈ queriesOf queryMap
             <-> queryToKey query <> "__proto__"
                 /\ latest queryToKey (queryToKey query) (q :: qs) = Some query) as Hmem.
  { intros query. rewrite elem_of_queriesOf. subst queryMap. split.
    - intros [key Hown]. rewrite own_accumulated in Hown. cbn [own] in Hown.
      destruct (latest queryToKey key (q :: qs)) as [q'|] eqn:Hl; [|done].
      destruct (String.eqb_spec key "__proto__") as [|Hproto]; [done|].
      injection Hown as ->. destruct (latest_key _ _ _ Hl) as [-> _]. by split.
    - intros [Hproto Hl]. exists (queryToKey query).
      by rewrite own_accumulated, Hl, eqb_neq_false. }
  eexists _, (queriesOf queryMap).
  split_and!.
  - unfold window. rewrite run_app, run_gets_idle by done.
    cbn [mbind option_bind run step debouncedPopulate AccumulatingDebounce.timer_fires fst snd].
    reflexivity.
  - done.
  - done.
  - done.
  - done.
  - rewrite Hkeys. rewrite objectKeys_Permutation. apply NoDup_firstSeen.
  - done.
  - intros key Hin Hproto. rewrite Hkeys, objectKeys_Permutation, firstSeen_spec.
    split; [done|]. by rewrite list_elem_of_singleton.
  - intros Hall. rewrite Hkeys. apply objectKeys_creation_order.
    intros key [Hin _]%firstSeen_spec. by apply Hall.
  - eexists. split_and!; [exact Hkeys|apply indexKeys_Permutation|apply indexKeys_sorted].
  - cbn [flush fetch_calls this]. unfold populate_begin. fold queryMap.
    by destruct (getMissing queryToKey (this s) (queriesOf queryMap)).
  - intros Hok%entries_ok_reachable. cbn [flush fetch_calls this]. unfold populate_begin.
    fold queryMap. rewrite (getMissing_filter _ _ Hok).
    split.
    + intros Hnil query Hin.
      destruct (get_own (queryToKey query) (_cache (this s))) as [entry|] eqn:Hget;
        [by left|].
      destruct (inherits snapshot_members (queryToKey query)) eqn:Hinh;
        [right; left; by apply inherits_true|].
      destruct (decide (pending (this s) !! queryToKey query = Some true)) as [|Hp];
        [by right; right|].
      exfalso.
      assert (query ∈ filter (fun query =>
                get_own (queryToKey query) (_cache (this s)) = None
                /\ inherits snapshot_members (queryToKey query) = false
                /\ pending (this s) !! queryToKey query <> Some true) (queriesOf queryMap))
        as Hin' by (apply list_elem_of_filter; by split_and!).
      destruct (filter _ (queriesOf queryMap)) as [|m ms]; [by apply elem_of_nil in Hin'|].
      cbn in Hnil. apply (f_equal length) in Hnil. rewrite length_app in Hnil.
      cbn in Hnil. lia.
    + intros Hall.
      assert (filter (fun query =>
                get_own (queryToKey query) (_cache (this s)) = None
                /\ inherits snapshot_members (queryToKey query) = false
                /\ pending (this s) !! queryToKey query <> Some true) (queriesOf queryMap)
              = []) as ->; [|cbn; by rewrite app_nil_r].
      apply filter_none. intros query Hin (Hnone & Hinh & Hp).
      destruct (Hall query Hin) as [[entry Hget]|[Hm|Hpend]]; [congruence| |done].
      apply inherits_false in Hinh. done.
  - intros m query query' Hk Hproto. unfold accumulateQuery. rewrite Hk.
    rewrite eqb_neq_false by done. split_and!.
    + apply store_store.
    + by rewrite own_store, eqb_eq_true.
    + intros Hin. rewrite keys_store.
      destruct (own (queryToKey query') m) eqn:Hown; [done|].
      by apply own_None in Hown.
Qed.

End Facts.

(** *** The properties on the concrete cache *)

Import Example.

Lemma fetching_a_reachable : reachable queryToKey dataToKey fetching_a.
Proof. exists [Get "a"; TimerFires]. vm_compute. reflexivity. Qed.

(** A stored complete entry with metadata, merged with the error entry,
    keeps its metadata: the entry in the snapshot is not the supplied one. *)
Lemma updateCache_merges_fields :
  this <$> run queryToKey dataToKey start before_failure = Some holds_a
  /\ error_for_a <> []
  /\ ~ replaces_whole_entries holds_a error_for_a.
Proof.
  split_and!; [vm_compute; reflexivity|done|].
  intros [H _]. specialize (H "a" error eq_refl).
  vm_compute in H. discriminate H.
Qed.

Lemma updateCache_deep_merge_witness :
  NoDup (keys error_for_a)
  /\ storable "a"
  /\ get_own "a" (_cache (updateCache holds_a error_for_a))
     = Some (VObj [("status", VStr "error"); ("data", VNull); ("meta", meta)])
  /\ get_own "b" (_cache (updateCache holds_a error_for_a))
     = Some (VObj [("status", VStr "complete"); ("data", VNull)]).
Proof.
  assert (NoDup (keys error_for_a)) as H by (vm_compute; apply NoDup_singleton).
  assert (storable "a") as Hkey by (split; [discriminate|reflexivity]).
  split; [exact H|]. split; [exact Hkey|].
  destruct (updateCache_deep_merge holds_a error_for_a H) as (Hsupplied & Hother & _).
  split.
  - destruct (Hsupplied "a" error Hkey eq_refl) as [Hget _]. exact Hget.
  - exact (Hother "b" eq_refl).
Defined.

(** The trace [overlapping] reaches a snapshot whose error entry under ["a"]
    carries the metadata of the group that was merged before the failure. *)
Lemma error_entry_with_meta :
  run queryToKey dataToKey start overlapping = Some failed_a
  /\ ~ errors_are_bare (this failed_a).
Proof.
  split; [vm_compute; reflexivity|].
  intros H. edestruct (H "a") as [_ Hmeta]; [reflexivity|reflexivity|].
  vm_compute in Hmeta. discriminate Hmeta.
Qed.

Lemma error_entries_have_null_data_witness :
  reachable queryToKey dataToKey failed_a
  /\ member (prop (_cache (this failed_a)) "a") "data" = VNull.
Proof.
  assert (reachable queryToKey dataToKey failed_a) as H
    by (exists overlapping; vm_compute; reflexivity).
  split; [exact H|].
  destruct (error_entries_have_null_data queryToKey dataToKey failed_a H) as [Hnull _].
  apply (Hnull "a"); reflexivity.
Defined.

(** [addData] writes a complete entry for ["a"] while the fetch for ["a"] is
    in flight; the failure of that fetch overwrites it. *)
Lemma failure_overwrites_complete :
  run queryToKey dataToKey start supplied_in_flight = Some supplied_a
  /\ in_flight supplied_a !! 0%nat = Some ["a"]
  /\ ~ failure_spares_complete queryToKey (this supplied_a) ["a"].
Proof.
  split_and!; [vm_compute; reflexivity|reflexivity|].
  intros H.
  assert ("a" ∈ ["a"]) as Hin by (apply elem_of_cons; by left).
  specialize (H "a" (complete (datum "a" 1)) Hin eq_refl eq_refl).
  vm_compute in H. discriminate H.
Qed.

Lemma failure_overwrites_every_key_witness :
  "a" ∈ ["a"]
  /\ exists entry,
       get_own "a" (_cache (populate_rejected queryToKey holds_a ["a"]).1) = Some entry
       /\ is_error entry /\ member entry "data" = VNull.
Proof.
  assert ("a" ∈ ["a"]) as H by (apply elem_of_cons; left; reflexivity).
  split; [exact H|].
  destruct (failure_overwrites_every_key queryToKey holds_a ["a"] "a" H)
    as (entry & Hget & _ & Herr & Hdata & _).
  exists entry. split_and!; [exact Hget|exact Herr|exact Hdata].
Defined.

Lemma addData_drops_meta_witness :
  queryToKey "a" = dataToKey (datum "a" 1) meta
  /\ get_own (queryToKey "a") (_cache (this (start (Query := string)))) = None
  /\ exists s',
       step queryToKey dataToKey start (AddData [datum "a" 1] meta) = Some s'
       /\ fetch_calls s' = []
       /\ exists entry,
            peek queryToKey (this s') "a" = Data entry
            /\ entry = VObj [("status", VStr "complete"); ("data", datum "a" 1)]
            /\ has_member entry "meta" = false.
Proof.
  split; [reflexivity|]. split; [reflexivity|].
  destruct (addData_drops_meta queryToKey dataToKey start (datum "a" 1) meta "a"
              eq_refl eq_refl)
    as (s' & Hstep & Hcalls & _ & (entry & Hpeek & Hentry & _ & _ & Hmeta) & _).
  exists s'. split_and!; [exact Hstep|exact Hcalls|].
  exists entry. split_and!; [exact Hpeek|exact Hentry|exact Hmeta].
Defined.

Lemma rejected_fetch_is_absorbed_witness :
  in_flight fetching_a !! 0%nat = Some ["a"]
  /\ exists s',
       settle fetching_a 0 (populate_rejected queryToKey) = Some (s', Fulfilled (VBool false))
       /\ step queryToKey dataToKey fetching_a (FetchRejects 0) = Some s'.
Proof.
  split; [reflexivity|].
  destruct (rejected_fetch_is_absorbed queryToKey dataToKey fetching_a 0 ["a"] eq_refl)
    as (s' & Hsettle & Hstep & _).
  exists s'. split; [exact Hsettle|exact Hstep].
Defined.

Lemma absent_keys_marked_witness :
  dataWrites dataToKey [datum "a" 1] = Some [("a", complete (datum "a" 1))]
  /\ "b" ∈ ["a"; "b"]
  /\ ("b" ∉ [("a", complete (datum "a" 1))].*1)
  /\ exists c' entry,
       putData queryToKey dataToKey init ["a"; "b"] [datum "a" 1] = Some c'
       /\ get_own "b" (_cache c') = Some entry
       /\ is_complete entry /\ member entry "data" = VNull.
Proof.
  assert ("b" ∈ ["a"; "b"]) as Hin by (apply elem_of_cons; right; apply elem_of_cons; left; reflexivity).
  assert ("b" ∉ ([("a", complete (datum "a" 1))].*1)) as Hout
    by (intros [Heq|Hnil]%elem_of_cons; [discriminate Heq|by apply elem_of_nil in Hnil]).
  split_and!; [reflexivity|exact Hin|exact Hout|].
  destruct (absent_keys_marked queryToKey dataToKey init ["a"; "b"] [datum "a" 1]
              [("a", complete (datum "a" 1))] "b" eq_refl Hin Hout)
    as (c' & entry & Hput & Hget & _ & Hc & Hd & _).
  exists c', entry. split_and!; [exact Hput|exact Hget|exact Hc|exact Hd].
Defined.


(** On a new cache no key has an entry and none is pending, and
    [getMissing] leaves out the two queries whose key is the name of a
    member every object inherits. *)
Lemma getMissing_skips_inherited_names :
  reachable queryToKey dataToKey start
  /\ this (start (Query := string)) = init
  /\ getMissing queryToKey init ["toString"; "a"; "constructor"] = ["a"]
  /\ ~ returns_absent_keys queryToKey init ["toString"; "a"; "constructor"].
Proof.
  split_and!; [by exists []|reflexivity|reflexivity|].
  intros H. vm_compute in H. discriminate H.
Qed.

Lemma getMissing_filters_witness :
  reachable queryToKey dataToKey failed_a
  /\ ("a" ∉ getMissing queryToKey (this failed_a) ["a"; "b"; "c"])
  /\ ("c" ∈ getMissing queryToKey (this failed_a) ["a"; "b"; "c"]).
Proof.
  assert (reachable queryToKey dataToKey failed_a) as H
    by (exists overlapping; vm_compute; reflexivity).
  split; [exact H|].
  destruct (getMissing_filters queryToKey dataToKey failed_a ["a"; "b"; "c"] H)
    as (_ & _ & Herror & _ & Hmissing).
  split.
  - eapply (Herror "a"); reflexivity.
  - apply (Hmissing "c").
    + apply elem_of_cons; right. apply elem_of_cons; right. apply elem_of_cons; by left.
    + apply inherits_false. reflexivity.
    + split; [reflexivity|discriminate].
Defined.

(** ["a"] is known when a window asks for it: the window flushes and calls
    no fetch. *)
Lemma window_without_fetch :
  run queryToKey dataToKey start known_before = Some known_a
  /\ debouncedPopulate known_a = AccumulatingDebounce.Idle
  /\ ~ window_fetches_once queryToKey dataToKey known_a ["a"].
Proof.
  split_and!; [vm_compute; reflexivity|reflexivity|].
  intros (s' & Hrun & _ & Hcalls). vm_compute in Hrun.
  injection Hrun as <-. vm_compute in Hcalls. discriminate Hcalls.
Qed.

Lemma window_coalesces_witness :
  debouncedPopulate (start (Query := string)) = AccumulatingDebounce.Idle
  /\ ["b"; "a"; "10"; "9"; "b"; "constructor"] <> []
  /\ exists s',
       run queryToKey dataToKey start (window ["b"; "a"; "10"; "9"; "b"; "constructor"])
       = Some s'
       /\ flushed s' = [["9"; "10"; "b"; "a"; "constructor"]]
       /\ fetch_calls s' = [["9"; "10"; "b"; "a"]].
Proof.
  assert (["b"; "a"; "10"; "9"; "b"; "constructor"] <> []) as Hne by discriminate.
  split_and!; [reflexivity|exact Hne|].
  destruct (window_coalesces queryToKey dataToKey start
              ["b"; "a"; "10"; "9"; "b"; "constructor"] eq_refl Hne)
    as (s' & batch & Hrun & Hflushed & _ & Hbatch & _ & _ & _ & _ & _ & _ & Hcalls & _).
  subst batch. exists s'. split_and!; [exact Hrun|exact Hflushed|exact Hcalls].
Defined.


End CacheFacts.

(** ** Scenarios

    The behaviours the design document lists as testable, run on the
    concrete cache. *)

Module Scenarios.
Import JS LazyMobXCache Example.

(** Three [get] calls for two keys in one window: one fetch, for two
    queries. *)
Example coalescing :
  fetch_calls <$> run queryToKey dataToKey start [Get "a"; Get "b"; Get "a"; TimerFires]
  = Some [["a"; "b"]].
Proof. vm_compute. reflexivity. Qed.

(** A key that is pending is not fetched again. *)
Example pending_not_refetched :
  fetch_calls <$> run queryToKey dataToKey start [Get "a"; TimerFires; Get "a"; Get "b"; TimerFires]
  = Some [["a"]; ["b"]].
Proof. vm_compute. reflexivity. Qed.

(** The fetch answers for ["a"] only: ["b"] is complete with null data. *)
Example confirmed_absent :
  (fun s => (peek queryToKey (this s) "a", peek queryToKey (this s) "b"))
    <$> run queryToKey dataToKey start [Get "a"; Get "b"; TimerFires; FetchResolves 0 [datum "a" 1]]
  = Some (Data (VObj [("status", VStr "complete"); ("data", datum "a" 1)]),
          Data (VObj [("status", VStr "complete"); ("data", VNull)])).
Proof. vm_compute. reflexivity. Qed.

(** The fetch fails: both keys are errors and [get] does not fetch them
    again. *)
Example error_isolation :
  (fun s => (peek queryToKey (this s) "a", peek queryToKey (this s) "b", fetch_calls s))
    <$> run queryToKey dataToKey start [Get "a"; Get "b"; TimerFires; FetchRejects 0;
                        Get "a"; Get "b"; TimerFires]
  = Some (Data (VObj [("status", VStr "error"); ("data", VNull)]),
          Data (VObj [("status", VStr "error"); ("data", VNull)]), [["a"; "b"]]).
Proof. vm_compute. reflexivity. Qed.

(** The metadata of a group goes to each of its data. *)
Example augmented_metadata :
  (fun s => (peek queryToKey (this s) "a", peek queryToKey (this s) "b"))
    <$> run queryToKey dataToKey start [Get "a"; Get "b"; TimerFires;
                        FetchResolves 0 [group [datum "a" 1; datum "b" 2]]]
  = Some (Data (VObj [("status", VStr "complete"); ("data", datum "a" 1); ("meta", meta)]),
          Data (VObj [("status", VStr "complete"); ("data", datum "b" 2); ("meta", meta)])).
Proof. vm_compute. reflexivity. Qed.

(** A result that is not well formed makes [putData] throw, and the batch
    fails as if the fetch had. *)
Example malformed_result :
  (fun s => peek queryToKey (this s) "a")
    <$> run queryToKey dataToKey start [Get "a"; TimerFires; FetchResolves 0 [datum "a" 1; VNull]]
  = Some (Data (VObj [("status", VStr "error"); ("data", VNull)])).
Proof. vm_compute. reflexivity. Qed.

(** So does an element whose own [hasOwnProperty] is data. *)
Example shadowed_hasOwnProperty :
  (fun s => peek queryToKey (this s) "a")
    <$> run queryToKey dataToKey start
          [Get "a"; TimerFires;
           FetchResolves 0 [VObj [("id", VStr "a"); ("hasOwnProperty", VNum 1)]]]
  = Some (Data (VObj [("status", VStr "error"); ("data", VNull)])).
Proof. vm_compute. reflexivity. Qed.

(** [addData] for a key that holds an object merges the two data. *)
Example addData_merges_data :
  peek queryToKey
       (addData dataToKey (addData dataToKey init [datum "a" 1] VUndefined)
                [VObj [("id", VStr "a"); ("label", VStr "x")]] VUndefined)
       "a"
  = Data (VObj [("status", VStr "complete");
                ("data", VObj [("id", VStr "a"); ("n", VNum 1); ("label", VStr "x")])]).
Proof. vm_compute. reflexivity. Qed.

(** A key that is the name of a member every object inherits reads as that
    member and is never fetched. *)
Example inherited_names :
  (fun s => (peek queryToKey (this s) "constructor", peek queryToKey (this s) "a",
             flushed s, fetch_calls s))
    <$> run queryToKey dataToKey start [Get "constructor"; Get "a"; TimerFires]
  = Some (Inherited "constructor", Data VNull, [["constructor"; "a"]], [["a"]]).
Proof. vm_compute. reflexivity. Qed.

(** The batch follows [Object.keys]: array indices first, in ascending
    order, then the other keys as they were first asked for. *)
Example batch_order :
  fetch_calls <$> run queryToKey dataToKey start
                    [Get "b"; Get "a"; Get "10"; Get "9"; Get "b"; Get "01"; TimerFires]
  = Some [["9"; "10"; "b"; "a"; "01"]].
Proof. vm_compute. reflexivity. Qed.

End Scenarios.

(** ** The life of a key: properties *)

Module LifecycleFacts.
Import JS JSFacts LazyMobXCache EntryFacts CacheFacts Lifecycle.

Section Facts.

Context {library : Library} {Query : Type}.
Variable queryToKey : Query -> string.
Variable dataToKey : value -> value -> string.

(** *** What a step does to the snapshot *)

(** Every step leaves the snapshot alone or merges staged entries into it. *)
Lemma step_snapshot (s s' : system) (e : event) :
  step queryToKey dataToKey s e = Some s' ->
  _cache (this s') = _cache (this s)
  \/ exists toMerge,
      (forall k v, (k, v) ∈ toMerge -> staged_entry v)
      /\ _cache (this s') = merge (_cache (this s)) toMerge.
Proof.
  destruct e as [q|data meta| |n data|n]; cbn [step].
  - intros [= <-]. by left.
  - intros [= <-]. right. exists (addData_toMerge dataToKey data meta). split.
    + apply staged_addData_toMerge.
    + cbn [this]. apply cache_updateCache.
  - destruct (AccumulatingDebounce.timer_fires (debouncedPopulate s)) as [[queryMap idle]|];
      cbn [mbind option_bind]; [|done].
    intros [= <-]. left. cbn [flush this fst snd]. unfold populate_begin.
    by destruct (length (getMissing queryToKey (this s) (queriesOf queryMap)) =? 0)%nat.
  - unfold settle. destruct (in_flight s !! n) as [missing|]; cbn; [|done].
    intros [= <-]. right. cbn [this]. unfold populate_resolved, putData.
    destruct (putData_toMerge queryToKey dataToKey missing data) as [toMerge|] eqn:HtoMerge;
      cbn [mbind option_bind fst unmarkPending populate_rejected _cache].
    + exists toMerge. split; [|apply cache_updateCache].
      intros k v. by apply (staged_putData_toMerge queryToKey dataToKey missing data).
    + exists (markError_toMerge queryToKey missing). split; [|apply cache_updateCache].
      apply staged_markError_toMerge.
  - unfold settle. destruct (in_flight s !! n) as [missing|]; cbn; [|done].
    intros [= <-]. right. cbn [this].
    exists (markError_toMerge queryToKey missing). split; [|apply cache_updateCache].
    apply staged_markError_toMerge.
Qed.

Lemma is_Some_get_own_merge key cur other :
  is_Some (get_own key cur) -> is_Some (get_own key (merge cur other)).
Proof. rewrite get_own_merge. by destruct (last_write key other). Qed.

Lemma shaped_merge cur toMerge :
  shaped cur ->
  (forall k v, (k, v) ∈ toMerge -> staged_entry v) ->
  shaped (merge cur toMerge).
Proof.
  intros Hcur Hstaged key entry. rewrite get_own_merge.
  destruct (last_write key toMerge) as [v|] eqn:Hlast; [|apply Hcur].
  intros [= <-].
  pose proof (Hstaged _ _ (last_write_elem_of _ _ _ Hlast)) as Hv.
  split.
  - destruct Hv; apply isMergableObject_newValue.
  - unfold is_complete, is_error. rewrite staged_entry_status by done.
    destruct Hv; [by left|by left|by right].
Qed.

Lemma shaped_run events s s' :
  shaped (_cache (this s)) ->
  run queryToKey dataToKey s events = Some s' ->
  shaped (_cache (this s')).
Proof.
  revert s. induction events as [|e events IH]; intros s Hs; cbn [run].
  - by intros [= <-].
  - destruct (step queryToKey dataToKey s e) as [s1|] eqn:Hstep; cbn [mbind option_bind]; [|done].
    apply IH. destruct (step_snapshot _ _ _ Hstep) as [->|(toMerge & Hstaged & ->)]; [done|].
    by apply shaped_merge.
Qed.

(** *** [peek] *)

(** X1: in every reachable state [peek] returns [null] exactly for a query
    whose key has no entry and is not the name of a member the snapshot
    inherits or carries; for such a name without entry it returns that
    member.  For a key that has an entry it returns the entry, an object
    whose status is complete or error. *)
Theorem peek_null_iff_unknown (s : system) (query : Query) :
  reachable queryToKey dataToKey s ->
  (peek queryToKey (this s) query = Data VNull
   <-> get_own (queryToKey query) (_cache (this s)) = None
       /\ queryToKey query ∉ snapshot_members)
  /\ (get_own (queryToKey query) (_cache (this s)) = None ->
      queryToKey query ∈ snapshot_members ->
      peek queryToKey (this s) query = Inherited (queryToKey query))
  /\ (forall entry,
      storable (queryToKey query) ->
      get_own (queryToKey query) (_cache (this s)) = Some entry ->
      peek queryToKey (this s) query = Data entry
      /\ isMergableObject entry = true
      /\ (is_complete entry \/ is_error entry)).
Proof.
  intros [events Hrun].
  assert (shaped (_cache (this s))) as Hshaped.
  { eapply shaped_run; [|exact Hrun]. by intros key entry. }
  assert (forall entry,
      get_own (queryToKey query) (_cache (this s)) = Some entry ->
      peek queryToKey (this s) query = Data entry
      /\ isMergableObject entry = true
      /\ (is_complete entry \/ is_error entry)) as Hentry.
  { intros entry Hget. destruct (Hshaped _ _ Hget) as [Hobj Hstatus].
    split_and!; [by apply peek_entry|done|done]. }
  split_and!.
  - destruct (get_own (queryToKey query) (_cache (this s))) as [entry|] eqn:Hget.
    + destruct (Hentry entry eq_refl) as (-> & Hobj & _).
      split; [|by intros [? _]]. intros [= ->]. done.
    + unfold peek, read. rewrite Hget.
      destruct (inherits snapshot_members (queryToKey query)) eqn:Hin.
      * apply inherits_true in Hin. cbn [truthy_read]. split; [done|by intros [_ ?]].
      * apply inherits_false in Hin. cbn [truthy_read truthy]. by split.
  - intros Hget Hin. unfold peek, read. rewrite Hget.
    apply inherits_true in Hin. by rewrite Hin.
  - intros entry _. apply Hentry.
Qed.

(** *** Keys are never removed *)

(** X2: no sequence of events removes a key from the snapshot: a key that
    has an entry keeps having one. *)
Theorem keys_are_never_removed (s s' : system) (events : list event) (key : string) :
  run queryToKey dataToKey s events = Some s' ->
  known (this s) key ->
  known (this s') key.
Proof.
  unfold known. revert s. induction events as [|e events IH]; intros s; cbn [run].
  - by intros [= <-].
  - destruct (step queryToKey dataToKey s e) as [s1|] eqn:Hstep; cbn [mbind option_bind]; [|done].
    intros Hrun Hknown. apply (IH s1 Hrun).
    destruct (step_snapshot _ _ _ Hstep) as [->|(toMerge & _ & ->)]; [done|].
    by apply is_Some_get_own_merge.
Qed.

(** *** [getMissing] and the first half of [populate] *)

Lemma elem_of_getMissing (c : cache_state) (queries : list Query) (query : Query) :
  query ∈ getMissing queryToKey c queries
  <-> query ∈ queries /\ seen c (queryToKey query) = false.
Proof.
  unfold getMissing, seen. rewrite !list_elem_of_In, filter_In.
  by rewrite <- negb_orb, negb_true_iff.
Qed.

Lemma getMissing_nil (c : cache_state) (queries : list Query) :
  getMissing queryToKey c queries = []
  <-> forall query, query ∈ queries -> seen c (queryToKey query) = true.
Proof.
  split.
  - intros Hnil query Hin. apply not_false_iff_true. intros Htest.
    assert (query ∈ getMissing queryToKey c queries) as Hq by by apply elem_of_getMissing.
    rewrite Hnil in Hq. by apply elem_of_nil in Hq.
  - intros Hall. destruct (getMissing queryToKey c queries) as [|q l] eqn:Hm; [done|].
    assert (q ∈ getMissing queryToKey c queries) as Hq by (rewrite Hm; apply elem_of_cons; by left).
    apply elem_of_getMissing in Hq as [Hin Htest]. by rewrite (Hall q Hin) in Htest.
Qed.

Lemma seen_false (c : cache_state) (key : string) :
  entries_ok (_cache c) ->
  seen c key = false
  <-> get_own key (_cache c) = None
      /\ inherits snapshot_members key = false
      /\ pending c !! key <> Some true.
Proof.
  intros Hok. rewrite <- (missing_test c key Hok). unfold seen.
  by rewrite <- negb_orb, negb_true_iff.
Qed.

Lemma populate_begin_missing (c : cache_state) (queries : list Query) :
  (getMissing queryToKey c queries = []
   /\ populate_begin queryToKey c queries = (c, None))
  \/ (getMissing queryToKey c queries <> []
      /\ populate_begin queryToKey c queries
         = (markPending queryToKey c (getMissing queryToKey c queries),
            Some (getMissing queryToKey c queries))).
Proof.
  unfold populate_begin. destruct (getMissing queryToKey c queries); [by left|by right].
Qed.

(** X3: in every reachable state the first half of [populate] returns
    without a fetch, and without touching the cache, exactly when every query
    it is given has a key that has an entry, is marked pending, or is the
    name of a member the snapshot inherits or carries.  Otherwise it hands
    the missing queries to [fetch], none of which has an entry or such a
    name, and marks all of them pending. *)
Theorem populate_skips_known_keys (s : system) (queries : list Query) :
  reachable queryToKey dataToKey s ->
  ((populate_begin queryToKey (this s) queries).2 = None
   <-> forall query, query ∈ queries ->
         known (this s) (queryToKey query)
         \/ queryToKey query ∈ snapshot_members
         \/ pending (this s) !! queryToKey query = Some true)
  /\ ((populate_begin queryToKey (this s) queries).2 = None ->
      (populate_begin queryToKey (this s) queries).1 = this s)
  /\ (forall missing,
      (populate_begin queryToKey (this s) queries).2 = Some missing ->
      missing = getMissing queryToKey (this s) queries
      /\ missing <> []
      /\ forall query, query ∈ missing ->
           ~ known (this s) (queryToKey query)
           /\ (queryToKey query ∉ snapshot_members)
           /\ pending (this s) !! queryToKey query <> Some true
           /\ pending (populate_begin queryToKey (this s) queries).1 !! queryToKey query
              = Some true).
Proof.
  intros Hok%entries_ok_reachable.
  assert (forall query,
      seen (this s) (queryToKey query) = true
      <-> known (this s) (queryToKey query)
          \/ queryToKey query ∈ snapshot_members
          \/ pending (this s) !! queryToKey query = Some true) as Htest.
  { intros query. rewrite <- not_false_iff_true, (seen_false (this s) _ Hok).
    unfold known. rewrite <- inherits_true.
    destruct (get_own (queryToKey query) (_cache (this s))) as [entry|].
    - split; [by left|]. by intros _ [? _].
    - destruct (inherits snapshot_members (queryToKey query)).
      + split; [by right; left|]. by intros _ (_ & ? & _).
      + destruct (decide (pending (this s) !! queryToKey query = Some true)) as [Hp|Hp].
        * split; [by right; right|]. by intros _ (_ & _ & ?).
        * split; [by intros []|]. intros [[? [=]]|[?|?]]; done. }
  destruct (populate_begin_missing (this s) queries) as [[Hnil ->]|[Hne ->]]; cbn [fst snd].
  - split_and!; [|done|done]. split; [|done]. intros _ query Hin.
    apply Htest. by apply (proj1 (getMissing_nil _ _) Hnil).
  - split_and!; [|done|].
    + split; [done|]. intros Hall. destruct Hne. apply getMissing_nil.
      intros query Hin. by apply Htest, Hall.
    + intros missing [= <-]. split_and!; [done|done|].
      intros query Hin.
      pose proof Hin as [_ (Hnone & Hinh & Hp)%(seen_false _ _ Hok)]%elem_of_getMissing.
      split_and!.
      * unfold known. rewrite Hnone. by intros [? ?].
      * by apply inherits_false.
      * done.
      * cbn [markPending pending]. apply flagged_true. rewrite flagged_fold_insert.
        rewrite decide_True; [done|by apply elem_of_batchKeys].
Qed.

Lemma truthy_flag_fold_insert (b : bool) (queries : list Query) (p : gmap string bool) key :
  truthy_flag (fold_left (fun p query => <[queryToKey query := b]> p) queries p) key
  = if decide (key ∈ batchKeys queryToKey queries) then b else truthy_flag p key.
Proof.
  revert p. induction queries as [|q qs IH]; intros p; cbn [fold_left batchKeys map].
  - rewrite decide_False; [done|apply not_elem_of_nil].
  - rewrite IH. fold (batchKeys queryToKey qs).
    destruct (decide (key ∈ batchKeys queryToKey qs)) as [Hin|Hin].
    + rewrite decide_True; [done|]. apply elem_of_cons. by right.
    + destruct (decide (key = queryToKey q)) as [->|Hne].
      * rewrite decide_True by (apply elem_of_cons; by left).
        unfold truthy_flag. by rewrite lookup_insert_eq.
      * rewrite decide_False by (intros [?|?]%elem_of_cons; done).
        unfold truthy_flag. by rewrite lookup_insert_ne.
Qed.

(** A key that [getMissing] leaves out is left out after the first half of
    [populate], and so is every key of the queries it was given. *)
Lemma seen_populate_begin (c : cache_state) (queries : list Query) (key : string) :
  seen c key = true \/ key ∈ batchKeys queryToKey queries ->
  seen (populate_begin queryToKey c queries).1 key = true.
Proof.
  intros Hkey.
  assert (seen c key = true \/ key ∈ batchKeys queryToKey (getMissing queryToKey c queries))
    as [Hseen|Hin].
  { destruct Hkey as [?|(query & -> & Hin)%list_elem_of_fmap]; [by left|].
    destruct (seen c (queryToKey query)) eqn:Hseen; [by left|]. right.
    apply elem_of_batchKeys. by apply elem_of_getMissing. }
  - destruct (populate_begin_missing c queries) as [[_ ->]|[_ ->]]; cbn [fst]; [done|].
    unfold seen in *. cbn [markPending _cache pending].
    apply orb_true_iff in Hseen as [->|Hflag]; [done|].
    rewrite truthy_flag_fold_insert. case_decide; [apply orb_true_r|].
    rewrite Hflag. apply orb_true_r.
  - destruct (populate_begin_missing c queries) as [[Hnil ->]|[_ ->]]; cbn [fst].
    + rewrite Hnil in Hin. by apply elem_of_nil in Hin.
    + unfold seen. cbn [markPending _cache pending].
      rewrite truthy_flag_fold_insert, decide_True by done. apply orb_true_r.
Qed.

(** A key that [getMissing] leaves out is left out after a merge of staged
    entries that unmarks a batch, provided the merge has an entry for each
    key of the batch. *)
Lemma seen_settled (c : cache_state) (toMerge : obj) (missing : list Query) (key : string) :
  (forall k v, (k, v) ∈ toMerge -> staged_entry v) ->
  (forall k, k ∈ batchKeys queryToKey missing -> is_Some (last_write k toMerge)) ->
  seen c key = true ->
  seen (unmarkPending queryToKey (updateCache c toMerge) missing) key = true.
Proof.
  intros Hstaged Hbatch Hseen. unfold seen in *.
  cbn [unmarkPending _cache pending]. unfold read in *.
  rewrite get_own_updateCache, pending_updateCache, truthy_flag_fold_insert.
  destruct (last_write key toMerge) as [v|] eqn:Hlast.
  - cbn [truthy_read]. rewrite truthy_mergable; [done|].
    destruct (Hstaged _ _ (last_write_elem_of _ _ _ Hlast)); apply isMergableObject_newValue.
  - rewrite decide_False; [done|]. intros [v Hv]%Hbatch. congruence.
Qed.

Lemma seen_populate_rejected (c : cache_state) (missing : list Query) (key : string) :
  seen c key = true -> seen (populate_rejected queryToKey c missing).1 key = true.
Proof.
  intros Hseen. cbn [populate_rejected fst]. apply seen_settled; [| |done].
  - apply staged_markError_toMerge.
  - intros k Hk. rewrite last_write_markError_toMerge. by rewrite decide_True.
Qed.

Lemma seen_populate_resolved (c : cache_state) (missing : list Query) (data : list value)
      (key : string) :
  seen c key = true ->
  seen (populate_resolved queryToKey dataToKey c missing data).1 key = true.
Proof.
  intros Hseen. unfold populate_resolved, putData.
  destruct (putData_toMerge queryToKey dataToKey missing data) as [toMerge|] eqn:HtoMerge;
    cbn [mbind option_bind fst]; [|by apply seen_populate_rejected].
  apply seen_settled; [| |done].
  - intros k v. by apply (staged_putData_toMerge queryToKey dataToKey missing data).
  - intros k Hk.
    destruct (dataWrites dataToKey data) as [writes|] eqn:Hws;
      [|by rewrite putData_toMerge_writes, Hws in HtoMerge].
    rewrite (last_write_putData_toMerge _ _ _ _ _ _ k Hws HtoMerge).
    destruct (last_write k writes); [done|]. by rewrite decide_True.
Qed.

(** X4: once [populate] has run for a list of queries, running it for
    queries with the same keys fetches nothing and changes nothing, whether
    the first fetch is still in flight, has been rejected, or has resolved
    with whatever data. *)
Theorem populate_again_fetches_nothing (c : cache_state) (queries queries' : list Query)
        (data : list value) :
  (forall query', query' ∈ queries' ->
     queryToKey query' ∈ batchKeys queryToKey queries) ->
  let fetching := (populate_begin queryToKey c queries).1 in
  let missing := getMissing queryToKey c queries in
  let rejected := (populate_rejected queryToKey fetching missing).1 in
  let resolved := (populate_resolved queryToKey dataToKey fetching missing data).1 in
  populate_begin queryToKey fetching queries' = (fetching, None)
  /\ populate_begin queryToKey rejected queries' = (rejected, None)
  /\ populate_begin queryToKey resolved queries' = (resolved, None)
  /\ getMissing queryToKey fetching queries' = []
  /\ getMissing queryToKey rejected queries' = []
  /\ getMissing queryToKey resolved queries' = [].
Proof.
  intros Hkeys c1 missing c2 c3.
  assert (forall query', query' ∈ queries' -> seen c1 (queryToKey query') = true) as Hseen.
  { intros query' Hin. apply seen_populate_begin. right. by apply Hkeys. }
  assert (getMissing queryToKey c1 queries' = []) as Hnil1 by by apply getMissing_nil.
  assert (getMissing queryToKey c2 queries' = []) as Hnil2.
  { apply getMissing_nil. intros query' Hin. by apply seen_populate_rejected, Hseen. }
  assert (getMissing queryToKey c3 queries' = []) as Hnil3.
  { apply getMissing_nil. intros query' Hin. by apply seen_populate_resolved, Hseen. }
  split_and!; [| | |done..].
  - by destruct (populate_begin_missing c1 queries') as [[_ ->]|[Hne _]].
  - by destruct (populate_begin_missing c2 queries') as [[_ ->]|[Hne _]].
  - by destruct (populate_begin_missing c3 queries') as [[_ ->]|[Hne _]].
Qed.

(** *** [addData] *)




(** *** [populate] when the fetch resolves *)

(** X7: if the fetch for a batch resolves with a result that can be staged,
    [populate] resolves to [true]; every key of the batch then has an entry
    that is complete and not an error, none of them is marked pending, and
    the batch is no longer in flight. *)
Theorem resolved_fetch_completes_batch (s : system) (n : nat) (missing : list Query)
        (data : list value) (writes : list (string * value)) :
  in_flight s !! n = Some missing ->
  dataWrites dataToKey data = Some writes ->
  exists s',
    settle s n (fun c m => populate_resolved queryToKey dataToKey c m data)
    = Some (s', Fulfilled (VBool true))
    /\ step queryToKey dataToKey s (FetchResolves n data) = Some s'
    /\ in_flight s' = delete n (in_flight s)
    /\ forall query, query ∈ missing ->
         exists entry,
           get_own (queryToKey query) (_cache (this s')) = Some entry
           /\ peek queryToKey (this s') query = Data entry
           /\ is_complete entry
           /\ ~ is_error entry
           /\ flagged (pending (this s')) (queryToKey query) = false.
Proof.
  intros Hn Hws.
  destruct (putData_toMerge queryToKey dataToKey missing data) as [toMerge|] eqn:HtoMerge;
    [|by rewrite putData_toMerge_writes, Hws in HtoMerge].
  assert (populate_resolved queryToKey dataToKey (this s) missing data
          = (unmarkPending queryToKey (updateCache (this s) toMerge) missing,
             Fulfilled (VBool true))) as Hresolved.
  { unfold populate_resolved, putData. by rewrite HtoMerge. }
  eexists. split_and!.
  - unfold settle. rewrite Hn. cbn [mbind option_bind]. rewrite Hresolved. reflexivity.
  - cbn [step]. unfold settle. rewrite Hn. cbn [mbind option_bind fmap option_fmap option_map].
    rewrite Hresolved. reflexivity.
  - done.
  - intros query Hin. cbn [this fst].
    set (c' := unmarkPending queryToKey (updateCache (this s) toMerge) missing).
    pose proof (elem_of_batchKeys queryToKey query missing Hin) as Hkey.
    pose proof (last_write_putData_toMerge queryToKey dataToKey _ _ _ _ (queryToKey query)
                  Hws HtoMerge) as Hlast.
    rewrite decide_True in Hlast by done.
    assert (exists staged, last_write (queryToKey query) toMerge = Some staged
                           /\ staged_entry staged /\ is_complete staged)
      as (staged & Hstaged & Hentry & Hcomplete).
    { destruct (last_write (queryToKey query) writes) as [entry|] eqn:Hw.
      - exists entry. split; [done|].
        apply (shape_staged_entry dataToKey (queryToKey query)),
              (dataWrites_shape dataToKey data writes); [done|].
        by apply last_write_elem_of.
      - exists (complete VNull). split; [done|]. split; [constructor|done]. }
    exists (newValue (prop (_cache (this s)) (queryToKey query)) staged).
    assert (get_own (queryToKey query) (_cache c')
            = Some (newValue (prop (_cache (this s)) (queryToKey query)) staged)) as Hget.
    { subst c'. cbn [unmarkPending _cache]. by rewrite get_own_updateCache, Hstaged. }
    assert (isMergableObject (newValue (prop (_cache (this s)) (queryToKey query)) staged) = true)
      as Hobj by (destruct Hentry; apply isMergableObject_newValue).
    assert (is_complete (newValue (prop (_cache (this s)) (queryToKey query)) staged)) as Hc.
    { unfold is_complete. by rewrite staged_entry_status. }
    split_and!.
    + exact Hget.
    + by apply peek_entry.
    + exact Hc.
    + unfold is_error. unfold is_complete in Hc. by rewrite Hc.
    + subst c'. cbn [unmarkPending pending]. rewrite flagged_fold_insert.
      by rewrite decide_True.
Qed.

(** *** Results that cannot be staged *)

Lemma elementWrites_None (dataElt : value) :
  elementWrites dataToKey dataElt = None <-> malformed dataElt.
Proof.
  unfold elementWrites, malformed.
  destruct dataElt as [| |b|z|str|elts|o]; cbn [isAugmentedData mbind option_bind has_member].
  - split; [by right; left|done].
  - split; [by left|done].
  - split; [done|]. by intros [|[|[|[]]]].
  - split; [done|]. by intros [|[|[|[]]]].
  - split; [done|]. by intros [|[|[|[]]]].
  - split; [done|]. by intros [|[|[|[]]]].
  - destruct (hasOwnProperty o "hasOwnProperty"); cbn [mbind option_bind].
    { split; [|done]. intros _. by right; right; left. }
    destruct (hasOwnProperty o "meta").
    + destruct (iterate (member (VObj o) "data")) as [data|]; cbn [mbind option_bind].
      * split; [done|]. by intros [|[|[|[]]]].
      * split; [|done]. intros _. right; right; right. done.
    + split; [done|]. by intros [|[|[|[]]]].
Qed.

Lemma dataWrites_None (data : list value) :
  dataWrites dataToKey data = None <-> exists dataElt, dataElt ∈ data /\ malformed dataElt.
Proof.
  induction data as [|dataElt data IH].
  - split; [done|]. by intros (? & ?%elem_of_nil & _).
  - rewrite dataWrites_cons.
    destruct (elementWrites dataToKey dataElt) as [ws|] eqn:Helt; cbn [mbind option_bind].
    + destruct (dataWrites dataToKey data) as [ws'|]; cbn [mbind option_bind].
      * split; [done|]. intros (elt & [->|Hin]%elem_of_cons & Hbad).
        -- apply elementWrites_None in Hbad. congruence.
        -- assert (Some ws' = None) as Hnone by (apply IH; by exists elt).
           done.
      * split; [|done]. intros _. destruct (proj1 IH eq_refl) as (elt & Hin & Hbad).
        exists elt. split; [apply elem_of_cons; by right|done].
    + split; [|done]. intros _. exists dataElt. split; [apply elem_of_cons; by left|].
      by apply elementWrites_None.
Qed.

Lemma unreadable_malformed (dataElt : value) : unreadable dataElt -> malformed dataElt.
Proof.
  unfold unreadable, malformed.
  intros [?|[?|[?|[? Hdata]]]]; [by left|by right; left|by right; right; left|].
  right; right; right. split; [done|]. by destruct Hdata as [->| ->].
Qed.

(** X8: [putData] throws only if the result holds an element that is [null]
    or [undefined], that has a property [hasOwnProperty] of its own, or that
    is a group whose [data] cannot be iterated; it does throw if an element
    is [null] or [undefined], has a property [hasOwnProperty] of its own, or
    is a group whose [data] is [null] or [undefined].  A result on which it
    throws is handled as a failed fetch, and nothing of it is cached: the
    keys of the batch are marked as errors, every other key keeps its
    entry. *)
Theorem malformed_result_fails_batch (c : cache_state) (missing : list Query)
        (data : list value) :
  (putData queryToKey dataToKey c missing data = None ->
   exists dataElt, dataElt ∈ data /\ malformed dataElt)
  /\ ((exists dataElt, dataElt ∈ data /\ unreadable dataElt) ->
      putData queryToKey dataToKey c missing data = None)
  /\ (putData queryToKey dataToKey c missing data = None ->
      populate_resolved queryToKey dataToKey c missing data
      = populate_rejected queryToKey c missing
      /\ (forall key,
           key ∉ batchKeys queryToKey missing ->
           get_own key (_cache (populate_resolved queryToKey dataToKey c missing data).1)
           = get_own key (_cache c))
      /\ (forall query,
           query ∈ missing ->
           exists entry,
             get_own (queryToKey query)
                     (_cache (populate_resolved queryToKey dataToKey c missing data).1)
             = Some entry
             /\ is_error entry
             /\ member entry "data" = VNull)).
Proof.
  assert (putData queryToKey dataToKey c missing data = None
          <-> exists dataElt, dataElt ∈ data /\ malformed dataElt) as Hthrows.
  { rewrite <- dataWrites_None. unfold putData. rewrite putData_toMerge_writes.
    by destruct (dataWrites dataToKey data). }
  split_and!.
  - apply Hthrows.
  - intros (dataElt & Hin & Hbad). apply Hthrows. exists dataElt.
    split; [done|by apply unreadable_malformed].
  - intros Hbad. unfold populate_resolved. rewrite Hbad. split_and!; [done| |].
    + intros key Hkey. cbn [populate_rejected fst unmarkPending _cache].
      rewrite get_own_markError. by rewrite decide_False.
    + intros query Hin. cbn [populate_rejected fst unmarkPending _cache].
      rewrite get_own_markError, decide_True by by apply elem_of_batchKeys.
      eexists. split_and!; [done| |apply merged_error_data].
      unfold is_error. by rewrite staged_entry_status by constructor.
Qed.

(** *** Pending keys, fetches in flight and fetch calls *)

Lemma keysOfBatches_app (batches1 batches2 : list (list Query)) :
  keysOfBatches queryToKey (batches1 ++ batches2)
  = keysOfBatches queryToKey batches1 ++ keysOfBatches queryToKey batches2.
Proof. unfold keysOfBatches. by rewrite map_app, concat_app. Qed.

Lemma keysOfBatches_singleton (batch : list Query) :
  keysOfBatches queryToKey [batch] = batchKeys queryToKey batch.
Proof. unfold keysOfBatches. cbn [map concat]. apply app_nil_r. Qed.

Lemma keysOfBatches_cons (batch : list Query) (batches : list (list Query)) :
  keysOfBatches queryToKey (batch :: batches)
  = batchKeys queryToKey batch ++ keysOfBatches queryToKey batches.
Proof. done. Qed.

Lemma elem_of_keysOfBatches (batches : list (list Query)) (key : string) :
  key ∈ keysOfBatches queryToKey batches
  <-> exists batch, batch ∈ batches /\ key ∈ batchKeys queryToKey batch.
Proof.
  induction batches as [|b batches IH].
  - split; [by intros ?%elem_of_nil|]. by intros (? & ?%elem_of_nil & _).
  - rewrite keysOfBatches_cons, elem_of_app, IH. split.
    + intros [Hb|(batch & Hin & Hkey)].
      * exists b. split; [apply elem_of_cons; by left|done].
      * exists batch. split; [apply elem_of_cons; by right|done].
    + intros (batch & [->|Hin]%elem_of_cons & Hkey); [by left|]. right. by exists batch.
Qed.

Lemma keyed_empty : keyed queryToKey ([] : list (string * Query)).
Proof. split; [apply NoDup_nil_2|]. by intros key query ?%elem_of_nil. Qed.

Lemma elem_of_store {A : Type} (queryMap : list (string * A)) key (x : A) k y :
  (k, y) ∈ store key x queryMap -> (k, y) = (key, x) \/ (k, y) ∈ queryMap.
Proof.
  induction queryMap as [|[k' z] queryMap IH]; cbn [store].
  - intros [->|?%elem_of_nil]%elem_of_cons; [by left|done].
  - destruct (String.eqb_spec k' key) as [->|Hk].
    + intros [->|Hin]%elem_of_cons; [by left|]. right. apply elem_of_cons. by right.
    + intros [->|Hin]%elem_of_cons; [right; apply elem_of_cons; by left|].
      destruct (IH Hin) as [?|?]; [by left|]. right. apply elem_of_cons. by right.
Qed.

Lemma keyed_accumulateQuery (queryMap : list (string * Query)) (query : Query) :
  keyed queryToKey queryMap -> keyed queryToKey (accumulateQuery queryToKey queryMap query).
Proof.
  intros [Hnd Hk]. unfold accumulateQuery.
  destruct (String.eqb (queryToKey query) "__proto__"); [done|]. split.
  - rewrite keys_store.
    destruct (own (queryToKey query) queryMap) eqn:Hown; [done|].
    apply NoDup_app. split_and!; [done| |apply NoDup_singleton].
    intros key Hin ->%list_elem_of_singleton. by apply own_None in Hown.
  - intros key q [[= -> ->]|Hin]%elem_of_store; [done|by apply Hk].
Qed.

Lemma NoDup_batchKeys_filter (test : Query -> bool) (queries : list Query) :
  NoDup (batchKeys queryToKey queries) ->
  NoDup (batchKeys queryToKey (List.filter test queries)).
Proof.
  unfold batchKeys. induction queries as [|q qs IH]; cbn [map List.filter]; [done|].
  intros [Hq Hqs]%NoDup_cons. destruct (test q); [|by apply IH].
  cbn [map]. apply NoDup_cons. split; [|by apply IH].
  intros (q' & Hkey & Hin%list_elem_of_In%filter_In)%list_elem_of_fmap.
  apply Hq, list_elem_of_fmap. exists q'. split; [done|]. apply list_elem_of_In, Hin.
Qed.

(** The keys of the missing queries have no entry and are not pending. *)
Lemma missing_keys_unknown (c : cache_state) (queries : list Query) (key : string) :
  entries_ok (_cache c) ->
  key ∈ batchKeys queryToKey (getMissing queryToKey c queries) ->
  ~ known c key /\ flagged (pending c) key <> true.
Proof.
  intros Hok (q & -> & [_ Htest]%elem_of_getMissing)%list_elem_of_fmap.
  apply (seen_false c _ Hok) in Htest as (Hnone & _ & Hp).
  split.
  - unfold known. rewrite Hnone. by intros [? ?].
  - by rewrite flagged_true.
Qed.

Lemma consistent_start : consistent queryToKey (start (Query := Query)).
Proof.
  split; cbn.
  - by intros key entry.
  - done.
  - intros key. rewrite flagged_empty. split; [done|by intros ?%elem_of_nil].
  - apply NoDup_nil_2.
  - by intros key ?%elem_of_nil.
  - by intros key ?%elem_of_nil.
  - apply NoDup_nil_2.
Qed.

Lemma consistent_flush (s : system) (queryMap : list (string * Query)) :
  consistent queryToKey s ->
  keyed queryToKey queryMap ->
  consistent queryToKey (flush queryToKey s queryMap AccumulatingDebounce.Idle).
Proof.
  intros [Hok _ Hpending Hflight Hfetched Hstarted Hcalls] Hkeyed.
  unfold flush.
  destruct (populate_begin_missing (this s) (queriesOf queryMap)) as [[_ ->]|[_ ->]];
    cbn [fst snd option_list].
  - split; cbn [this debouncedPopulate in_flight fetch_calls option_list option_rect fst snd];
      rewrite ?app_nil_r; done.
  - set (missing := getMissing queryToKey (this s) (queriesOf queryMap)).
    assert (forall key, key ∈ batchKeys queryToKey missing ->
              ~ known (this s) key /\ flagged (pending (this s)) key <> true) as Hmissing.
    { intros key. by apply missing_keys_unknown. }
    assert (NoDup (batchKeys queryToKey missing)) as Hnodup.
    { apply NoDup_batchKeys_filter. destruct Hkeyed as [Hnd Hk].
      rewrite batchKeys_queriesOf by done. by rewrite objectKeys_Permutation. }
    split;
      cbn [this debouncedPopulate in_flight fetch_calls markPending _cache pending
           option_list option_rect fst snd].
    + done.
    + done.
    + intros key. rewrite flagged_fold_insert, keysOfBatches_app, keysOfBatches_singleton.
      rewrite elem_of_app, <- Hpending. case_decide; [|by intuition].
      split; [by right|done].
    + rewrite keysOfBatches_app, keysOfBatches_singleton. apply NoDup_app.
      split_and!; [done| |done].
      intros key Hin%Hpending Hm. by destruct (Hmissing key Hm) as [_ ?].
    + intros key. rewrite !keysOfBatches_app, keysOfBatches_singleton, !elem_of_app.
      intros [Hold|Hnew]; [|by right; right].
      destruct (Hfetched key Hold) as [?|?]; [by left|by right; left].
    + intros key. rewrite !keysOfBatches_app, !elem_of_app.
      intros [Hold|Hnew]; [left; by apply Hstarted|by right].
    + rewrite keysOfBatches_app, keysOfBatches_singleton. apply NoDup_app.
      split_and!; [done| |done].
      intros key Hold Hm. destruct (Hmissing key Hm) as [Hunknown Hnp].
      destruct (Hfetched key Hold) as [?|Hin%Hpending]; done.
Qed.

Lemma consistent_settle (s : system) (n : nat) (missing : list Query) (c' : cache_state) :
  consistent queryToKey s ->
  in_flight s !! n = Some missing ->
  entries_ok (_cache c') ->
  (forall key, known (this s) key -> known c' key) ->
  (forall key, key ∈ batchKeys queryToKey missing -> known c' key) ->
  pending c' = pending (unmarkPending queryToKey (this s) missing) ->
  consistent queryToKey
    {| this := c'; debouncedPopulate := debouncedPopulate s;
       in_flight := delete n (in_flight s);
       flushed := flushed s; fetch_calls := fetch_calls s |}.
Proof.
  intros [_ Hdeb Hpending Hflight Hfetched Hstarted Hcalls] Hn Hok Hmono Hbatch Hp.
  assert (forall key,
      key ∈ keysOfBatches queryToKey (in_flight s)
      <-> key ∈ batchKeys queryToKey missing
          \/ key ∈ keysOfBatches queryToKey (delete n (in_flight s))) as Hsplit.
  { intros key. rewrite delete_take_drop, <- (take_drop_middle _ _ _ Hn) at 1.
    rewrite !keysOfBatches_app, keysOfBatches_cons, !elem_of_app. tauto. }
  assert (NoDup (keysOfBatches queryToKey (delete n (in_flight s)))
          /\ forall key, key ∈ keysOfBatches queryToKey (delete n (in_flight s)) ->
                         key ∉ batchKeys queryToKey missing) as [Hrest Hdisjoint].
  { rewrite delete_take_drop. rewrite <- (take_drop_middle _ _ _ Hn) in Hflight.
    rewrite !keysOfBatches_app, keysOfBatches_cons in *.
    apply NoDup_app in Hflight as (H1 & H12 & (H2 & H23 & H3)%NoDup_app).
    split.
    - apply NoDup_app. split_and!; [done| |done].
      intros key Hk1 Hk3. apply (H12 key Hk1), elem_of_app. by right.
    - intros key [Hk1|Hk3]%elem_of_app Hkm.
      + apply (H12 key Hk1), elem_of_app. by left.
      + by apply (H23 key Hkm). }
  split; cbn [this debouncedPopulate in_flight fetch_calls].
  - done.
  - done.
  - intros key. rewrite Hp. cbn [unmarkPending pending]. rewrite flagged_fold_insert.
    case_decide as Hin.
    + split; [done|]. intros Hk. by destruct (Hdisjoint key Hk).
    + rewrite Hpending, Hsplit. split; [by intros [?|?]|by right].
  - done.
  - intros key Hk. destruct (Hfetched key Hk) as [Hknown|[Hb|Hr]%Hsplit].
    + left. by apply Hmono.
    + left. by apply Hbatch.
    + by right.
  - intros key Hk. apply Hstarted, Hsplit. by right.
  - done.
Qed.

Lemma known_updateCache (c : cache_state) (toMerge : obj) (key : string) :
  known c key -> known (updateCache c toMerge) key.
Proof. unfold known. rewrite cache_updateCache. apply is_Some_get_own_merge. Qed.

Lemma known_after_rejected (c : cache_state) (missing : list Query) (key : string) :
  key ∈ batchKeys queryToKey missing ->
  known (populate_rejected queryToKey c missing).1 key.
Proof.
  intros Hkey. unfold known. cbn [populate_rejected fst unmarkPending _cache].
  rewrite get_own_markError. by rewrite decide_True.
Qed.

Lemma known_after_resolved (c : cache_state) (missing : list Query) (data : list value)
      (key : string) :
  key ∈ batchKeys queryToKey missing ->
  known (populate_resolved queryToKey dataToKey c missing data).1 key.
Proof.
  intros Hkey. unfold populate_resolved, putData.
  destruct (putData_toMerge queryToKey dataToKey missing data) as [toMerge|] eqn:HtoMerge;
    cbn [mbind option_bind]; [|by apply known_after_rejected].
  unfold known. cbn [fst unmarkPending _cache]. rewrite get_own_updateCache.
  rewrite putData_toMerge_writes in HtoMerge.
  destruct (dataWrites dataToKey data) as [writes|] eqn:Hws; [|done].
  assert (putData_toMerge queryToKey dataToKey missing data = Some toMerge) as Hput
    by by rewrite putData_toMerge_writes, Hws.
  rewrite (last_write_putData_toMerge queryToKey dataToKey _ _ _ _ key Hws Hput).
  rewrite decide_True by done. by destruct (last_write key writes).
Qed.

Lemma consistent_step (s s' : system) (e : event) :
  consistent queryToKey s ->
  step queryToKey dataToKey s e = Some s' ->
  consistent queryToKey s'.
Proof.
  intros Hs Hstep.
  pose proof (entries_ok_step queryToKey dataToKey s e s' (consistent_entries _ _ Hs) Hstep)
    as Hok'.
  destruct e as [q|data meta| |n data|n]; cbn [step] in Hstep.
  - injection Hstep as <-. destruct Hs as [Hok Hdeb Hpending Hflight Hfetched Hstarted Hcalls].
    split; cbn [get fst this debouncedPopulate in_flight fetch_calls]; try done.
    destruct (debouncedPopulate s) as [|acc]; cbn [AccumulatingDebounce.call debouncer_keyed].
    + apply keyed_accumulateQuery, keyed_empty.
    + by apply keyed_accumulateQuery.
  - injection Hstep as <-. destruct Hs as [Hok Hdeb Hpending Hflight Hfetched Hstarted Hcalls].
    split; cbn [this debouncedPopulate in_flight fetch_calls] in *; try done.
    + intros key. unfold addData. rewrite pending_updateCache. apply Hpending.
    + intros key Hk. destruct (Hfetched key Hk) as [?|?]; [|by right].
      left. by apply known_updateCache.
  - destruct (debouncedPopulate s) as [|acc] eqn:Hd; cbn in Hstep; [done|].
    injection Hstep as <-. apply consistent_flush; [done|].
    pose proof (consistent_debouncer _ _ Hs) as Hk. by rewrite Hd in Hk.
  - unfold settle in Hstep. destruct (in_flight s !! n) as [missing|] eqn:Hn; cbn in Hstep; [|done].
    injection Hstep as <-.
    apply (consistent_settle s n missing); [done|done| | | |].
    + exact Hok'.
    + intros key. unfold populate_resolved, putData.
      destruct (putData_toMerge queryToKey dataToKey missing data); cbn [mbind option_bind fst].
      * apply known_updateCache.
      * apply known_updateCache.
    + intros key. apply known_after_resolved.
    + unfold populate_resolved, putData.
      destruct (putData_toMerge queryToKey dataToKey missing data);
        cbn [mbind option_bind fst populate_rejected unmarkPending pending].
      * by rewrite pending_updateCache.
      * unfold markError. by rewrite pending_updateCache.
  - unfold settle in Hstep. destruct (in_flight s !! n) as [missing|] eqn:Hn; cbn in Hstep; [|done].
    injection Hstep as <-.
    apply (consistent_settle s n missing); [done|done| | | |].
    + exact Hok'.
    + intros key. apply known_updateCache.
    + intros key. apply known_after_rejected.
    + cbn [populate_rejected fst unmarkPending pending]. unfold markError.
      by rewrite pending_updateCache.
Qed.

Lemma consistent_run (events : list event) (s s' : system) :
  consistent queryToKey s ->
  run queryToKey dataToKey s events = Some s' ->
  consistent queryToKey s'.
Proof.
  revert s. induction events as [|e events IH]; intros s Hs; cbn [run].
  - by intros [= <-].
  - destruct (step queryToKey dataToKey s e) as [s1|] eqn:Hstep; cbn [mbind option_bind]; [|done].
    apply IH. by eapply consistent_step.
Qed.

Lemma consistent_reachable (s : system) :
  reachable queryToKey dataToKey s -> consistent queryToKey s.
Proof. intros [events Hrun]. eapply consistent_run; [apply consistent_start|exact Hrun]. Qed.

(** X9: in every reachable state a key is marked pending exactly when it is
    the key of a query of a batch whose fetch has not settled, and no key
    belongs to two such batches, or twice to one. *)
Theorem pending_iff_in_flight (s : system) :
  reachable queryToKey dataToKey s ->
  (forall key,
      pending (this s) !! key = Some true
      <-> exists batch, batch ∈ in_flight s /\ key ∈ batchKeys queryToKey batch)
  /\ NoDup (keysOfBatches queryToKey (in_flight s)).
Proof.
  intros [_ _ Hpending Hflight _ _ _]%consistent_reachable. split; [|done].
  intros key. by rewrite <- flagged_true, Hpending, elem_of_keysOfBatches.
Qed.

(** X10: in every reachable state the calls made to [fetch] have pairwise
    different keys: no key is handed to [fetch] twice, neither in one call
    nor in two. *)
Theorem no_key_is_fetched_twice (s : system) :
  reachable queryToKey dataToKey s ->
  NoDup (keysOfBatches queryToKey (fetch_calls s)).
Proof. by intros [_ _ _ _ _ _ Hcalls]%consistent_reachable. Qed.

(** X11: in every reachable state a key that was handed to [fetch] either
    has an entry in the snapshot or belongs to a batch that is still in
    flight, and every batch in flight was handed to [fetch]. *)
Theorem fetched_keys_are_known_or_in_flight (s : system) :
  reachable queryToKey dataToKey s ->
  (forall key,
      key ∈ keysOfBatches queryToKey (fetch_calls s) ->
      known (this s) key \/ key ∈ keysOfBatches queryToKey (in_flight s))
  /\ (forall key,
      key ∈ keysOfBatches queryToKey (in_flight s) ->
      key ∈ keysOfBatches queryToKey (fetch_calls s)).
Proof. by intros [_ _ _ _ Hfetched Hstarted _]%consistent_reachable. Qed.

(** *** What a settled fetch leaves alone *)

(** X12: when the fetch of a batch settles, the only entries that change
    are those of the keys of the batch and, on success, of the keys of the
    returned data, asked for or not; the only pending flags that change are
    those of the keys of the batch. *)
Theorem settled_fetch_changes_only_its_keys (c : cache_state) (missing : list Query)
        (data : list value) (writes : list (string * value)) (key : string) :
  dataWrites dataToKey data = Some writes ->
  key ∉ batchKeys queryToKey missing ->
  (key ∉ writes.*1 ->
   get_own key (_cache (populate_resolved queryToKey dataToKey c missing data).1)
   = get_own key (_cache c))
  /\ get_own key (_cache (populate_rejected queryToKey c missing).1) = get_own key (_cache c)
  /\ flagged (pending (populate_resolved queryToKey dataToKey c missing data).1) key
     = flagged (pending c) key
  /\ flagged (pending (populate_rejected queryToKey c missing).1) key
     = flagged (pending c) key.
Proof.
  intros Hws Hkey.
  destruct (putData_toMerge queryToKey dataToKey missing data) as [toMerge|] eqn:HtoMerge;
    [|by rewrite putData_toMerge_writes, Hws in HtoMerge].
  assert (populate_resolved queryToKey dataToKey c missing data
          = (unmarkPending queryToKey (updateCache c toMerge) missing,
             Fulfilled (VBool true))) as ->.
  { unfold populate_resolved, putData. by rewrite HtoMerge. }
  cbn [populate_rejected fst unmarkPending _cache pending].
  split_and!.
  - intros Hdata. rewrite get_own_updateCache.
    rewrite (last_write_putData_toMerge queryToKey dataToKey _ _ _ _ key Hws HtoMerge).
    apply last_write_None in Hdata. rewrite Hdata. by rewrite decide_False.
  - rewrite get_own_markError. by rewrite decide_False.
  - rewrite flagged_fold_insert, decide_False by done. by rewrite pending_updateCache.
  - rewrite flagged_fold_insert, decide_False by done. unfold markError.
    by rewrite pending_updateCache.
Qed.

End Facts.

(** *** The properties on the concrete cache *)

Import Example LifecycleExample.

Lemma peek_null_iff_unknown_witness :
  reachable queryToKey dataToKey failed_a
  /\ peek queryToKey (this failed_a) "c" = Data VNull
  /\ peek queryToKey (this failed_a) "toString" = Inherited "toString".
Proof.
  assert (reachable queryToKey dataToKey failed_a) as H
    by (exists overlapping; vm_compute; reflexivity).
  split; [exact H|]. split.
  - destruct (peek_null_iff_unknown queryToKey dataToKey failed_a "c" H) as [Hnull _].
    apply Hnull. split; [reflexivity|]. apply inherits_false. reflexivity.
  - destruct (peek_null_iff_unknown queryToKey dataToKey failed_a "toString" H)
      as (_ & Hmember & _).
    apply Hmember; [reflexivity|]. apply inherits_true. reflexivity.
Defined.

Lemma keys_are_never_removed_witness :
  run queryToKey dataToKey supplied_a asked_again = Some rejected_a
  /\ known (this supplied_a) "a"
  /\ known (this rejected_a) "a".
Proof.
  assert (run queryToKey dataToKey supplied_a asked_again = Some rejected_a) as Hrun
    by (vm_compute; reflexivity).
  assert (known (this supplied_a) "a") as Hknown by (eexists; reflexivity).
  split_and!; [exact Hrun|exact Hknown|].
  exact (keys_are_never_removed queryToKey dataToKey supplied_a rejected_a
           asked_again "a" Hrun Hknown).
Defined.

Lemma populate_skips_known_keys_witness :
  reachable queryToKey dataToKey failed_a
  /\ (populate_begin queryToKey (this failed_a) ["a"; "toString"]).2 = None
  /\ forall missing,
       (populate_begin queryToKey (this failed_a) ["a"; "c"]).2 = Some missing ->
       missing = getMissing queryToKey (this failed_a) ["a"; "c"].
Proof.
  assert (reachable queryToKey dataToKey failed_a) as H
    by (exists overlapping; vm_compute; reflexivity).
  split; [exact H|]. split.
  - destruct (populate_skips_known_keys queryToKey dataToKey failed_a ["a"; "toString"] H)
      as [Hnone _].
    apply Hnone. intros query Hin. apply elem_of_cons in Hin. destruct Hin as [Heq|Hin].
    + left. rewrite Heq. eexists. reflexivity.
    + apply list_elem_of_singleton in Hin. right. left. rewrite Hin.
      apply inherits_true. reflexivity.
  - destruct (populate_skips_known_keys queryToKey dataToKey failed_a ["a"; "c"] H)
      as (_ & _ & Hsome).
    intros missing Hmissing. destruct (Hsome missing Hmissing) as [Heq _]. exact Heq.
Defined.

Lemma populate_again_fetches_nothing_witness :
  (forall query', query' ∈ ["a"] -> queryToKey query' ∈ batchKeys queryToKey ["a"; "b"])
  /\ getMissing queryToKey
       (populate_resolved queryToKey dataToKey
          (populate_begin queryToKey init ["a"; "b"]).1
          (getMissing queryToKey init ["a"; "b"]) [datum "b" 1]).1 ["a"] = []
  /\ getMissing queryToKey
       (populate_rejected queryToKey
          (populate_begin queryToKey init ["a"; "b"]).1
          (getMissing queryToKey init ["a"; "b"])).1 ["a"] = [].
Proof.
  assert (forall query', query' ∈ ["a"] ->
            queryToKey query' ∈ batchKeys queryToKey ["a"; "b"]) as H.
  { intros query' Hin. apply list_elem_of_singleton in Hin. rewrite Hin.
    apply elem_of_cons. left. reflexivity. }
  split; [exact H|].
  pose proof (populate_again_fetches_nothing queryToKey dataToKey init ["a"; "b"] ["a"]
                [datum "b" 1] H) as Hagain.
  cbv zeta in Hagain. destruct Hagain as (_ & _ & _ & _ & Hrejected & Hresolved).
  split; [exact Hresolved|exact Hrejected].
Defined.



Lemma resolved_fetch_completes_batch_witness :
  in_flight fetching_a !! 0%nat = Some ["a"]
  /\ dataWrites dataToKey [datum "a" 1] = Some [("a", complete (datum "a" 1))]
  /\ exists s',
       settle fetching_a 0 (fun c m => populate_resolved queryToKey dataToKey c m [datum "a" 1])
       = Some (s', Fulfilled (VBool true))
       /\ in_flight s' = [].
Proof.
  split_and!; [reflexivity|reflexivity|].
  destruct (resolved_fetch_completes_batch queryToKey dataToKey fetching_a 0 ["a"]
              [datum "a" 1] [("a", complete (datum "a" 1))] eq_refl eq_refl)
    as (s' & Hsettle & _ & Hflight & _).
  exists s'. split; [exact Hsettle|exact Hflight].
Defined.

Lemma pending_iff_in_flight_witness :
  reachable queryToKey dataToKey fetching_a
  /\ (pending (this fetching_a) !! "a" = Some true
      <-> exists batch, batch ∈ in_flight fetching_a /\ "a" ∈ batchKeys queryToKey batch).
Proof.
  assert (reachable queryToKey dataToKey fetching_a) as H
    by (exists [Get "a"; TimerFires]; vm_compute; reflexivity).
  split; [exact H|].
  exact (proj1 (pending_iff_in_flight queryToKey dataToKey fetching_a H) "a").
Defined.

Lemma no_key_is_fetched_twice_witness :
  reachable queryToKey dataToKey failed_a
  /\ NoDup (keysOfBatches queryToKey (fetch_calls failed_a)).
Proof.
  assert (reachable queryToKey dataToKey failed_a) as H
    by (exists overlapping; vm_compute; reflexivity).
  split; [exact H|].
  exact (no_key_is_fetched_twice queryToKey dataToKey failed_a H).
Defined.

Lemma fetched_keys_are_known_or_in_flight_witness :
  reachable queryToKey dataToKey failed_a
  /\ forall key,
       key ∈ keysOfBatches queryToKey (fetch_calls failed_a) ->
       known (this failed_a) key \/ key ∈ keysOfBatches queryToKey (in_flight failed_a).
Proof.
  assert (reachable queryToKey dataToKey failed_a) as H
    by (exists overlapping; vm_compute; reflexivity).
  split; [exact H|].
  exact (proj1 (fetched_keys_are_known_or_in_flight queryToKey dataToKey failed_a H)).
Defined.

Lemma settled_fetch_changes_only_its_keys_witness :
  dataWrites dataToKey flat_result = Some flat_writes
  /\ ("c" ∉ batchKeys queryToKey ["a"; "b"])
  /\ get_own "c" (_cache (populate_rejected queryToKey (this failed_a) ["a"; "b"]).1)
     = get_own "c" (_cache (this failed_a)).
Proof.
  assert ("c" ∉ batchKeys queryToKey ["a"; "b"]) as H.
  { intros Hin. apply elem_of_cons in Hin. destruct Hin as [Heq|Hin]; [discriminate Heq|].
    apply list_elem_of_singleton in Hin. discriminate Hin. }
  split_and!; [reflexivity|exact H|].
  exact (proj1 (proj2 (settled_fetch_changes_only_its_keys queryToKey dataToKey
                         (this failed_a) ["a"; "b"] flat_result flat_writes "c" eq_refl H))).
Defined.

End LifecycleFacts.

(** ** The pie chart: properties *)

Module PieChartFacts.
Import PieChart.

Section Facts.

Variable UNSELECTED_COLOR : string.

Lemma includes_true (collection : list string) (v : string) :
  includes collection v = true <-> v ∈ collection.
Proof.
  unfold includes. rewrite existsb_exists. split.
  - intros (x & Hin & ->%String.eqb_eq). by apply list_elem_of_In.
  - intros Hin. exists v. split; [by apply list_elem_of_In|apply String.eqb_refl].
Qed.

Lemma includes_false (collection : list string) (v : string) :
  includes collection v = false <-> v ∉ collection.
Proof. rewrite <- includes_true. by destruct (includes collection v). Qed.

Lemma isEmpty_false (collection : list string) (v : string) :
  v ∈ collection -> isEmpty collection = false.
Proof. destruct collection; [by intros ?%elem_of_nil|done]. Qed.

Lemma elem_of_onUserSelection (filters : list string) (filter x : string) :
  x ∈ onUserSelection filters filter
  <-> (x = filter /\ filter ∉ filters) \/ (x <> filter /\ x ∈ filters).
Proof.
  unfold onUserSelection. destruct (includes filters filter) eqn:Hinc.
  - apply includes_true in Hinc. rewrite list_elem_of_In, filter_In, <- list_elem_of_In.
    rewrite negb_true_iff, String.eqb_neq. split.
    + intros [? ?]. by right.
    + intros [[_ ?]|[? ?]]; done.
  - apply includes_false in Hinc. rewrite elem_of_app, list_elem_of_singleton. split.
    + intros [Hin| ->]; [|by left]. right. split; [|done]. by intros ->.
    + intros [[-> _]|[_ ?]]; [by right|by left].
Qed.

(** X13: a click on a value toggles it and nothing else: the value is in
    the new selection exactly when it was not in the old one, every other
    value stays in or out; a selection without repetition stays so, and a
    second click on the value gives back the values of the first
    selection. *)
Theorem onUserSelection_toggles (filters : list string) (filter : string) :
  (filter ∈ onUserSelection filters filter <-> filter ∉ filters)
  /\ (forall x, x <> filter -> x ∈ onUserSelection filters filter <-> x ∈ filters)
  /\ (NoDup filters -> NoDup (onUserSelection filters filter))
  /\ (forall x, x ∈ onUserSelection (onUserSelection filters filter) filter <-> x ∈ filters).
Proof.
  split_and!.
  - rewrite elem_of_onUserSelection. split; [by intros [[_ ?]|[? _]]|by left].
  - intros x Hx. rewrite elem_of_onUserSelection. split; [by intros [[? _]|[_ ?]]|by right].
  - intros Hnodup. unfold onUserSelection. destruct (includes filters filter) eqn:Hinc.
    + apply NoDup_ListNoDup, List.NoDup_filter, NoDup_ListNoDup, Hnodup.
    + apply includes_false in Hinc. apply NoDup_app. split_and!; [done| |apply NoDup_singleton].
      by intros x Hx ->%list_elem_of_singleton.
  - intros x. rewrite !elem_of_onUserSelection.
    destruct (decide (x = filter)) as [->|Hne].
    + split.
      * intros [[_ Hout]|[? _]]; [|done].
        destruct (decide (filter ∈ filters)) as [?|Hnot]; [done|].
        destruct Hout. left. by split.
      * intros Hin. left. split; [done|]. by intros [[_ ?]|[? _]].
    + split.
      * by intros [[? _]|[_ [[? _]|[_ ?]]]].
      * intros Hin. right. split; [done|]. by right.
Qed.

(** X14: the four style callbacks agree on every slice.  A slice is
    outlined, with width 3, exactly when its value is selected; it is dimmed,
    with the unselected colour and opacity ['0.5'], exactly when there is a
    selection that does not hold its value; no slice is both, and without a
    selection every slice has its own colour, no outline and opacity 1. *)
Theorem slice_styles_agree (filters : list string) (d : ClinicalDataCountWithColor) :
  (stroke filters d = Some "#cccccc" <-> value d ∈ filters)
  /\ (stroke filters d = None <-> value d ∉ filters)
  /\ (strokeWidth filters d = 3%Z <-> value d ∈ filters)
  /\ (strokeWidth filters d = 0%Z <-> value d ∉ filters)
  /\ (fillOpacity filters d = JS.VStr "0.5" <-> filters <> [] /\ value d ∉ filters)
  /\ (filters <> [] /\ value d ∉ filters -> fill UNSELECTED_COLOR filters d = UNSELECTED_COLOR)
  /\ (~ (filters <> [] /\ value d ∉ filters) ->
      fill UNSELECTED_COLOR filters d = color d /\ fillOpacity filters d = JS.VNum 1)
  /\ ~ (is_Some (stroke filters d) /\ fillOpacity filters d = JS.VStr "0.5").
Proof.
  unfold stroke, strokeWidth, fillOpacity, fill.
  destruct (includes filters (value d)) eqn:Hinc.
  - pose proof (proj1 (includes_true _ _) Hinc) as Hin.
    rewrite (isEmpty_false _ _ Hin). cbn [negb andb].
    split_and!; try done.
    + split; [done|]. by intros [_ ?].
    + by intros [_ ?].
    + by intros [_ ?].
  - pose proof (proj1 (includes_false _ _) Hinc) as Hout.
    rewrite andb_false_r. destruct filters as [|f filters]; cbn [isEmpty negb andb].
    + split_and!; try done.
      * split; [done|]. by intros [? _].
      * by intros [? _].
      * by intros [[? ?] _].
    + split_and!; try done.
      * intros Hnot. destruct Hnot. by split.
      * by intros [[? ?] _].
Qed.

(** X15: a click on a slice changes its outline: if its value was not
    selected the slice is outlined afterwards and keeps its own colour, and
    if it was selected the slice is not outlined any more. *)
Theorem click_toggles_outline (filters : list string) (d : ClinicalDataCountWithColor) :
  (value d ∉ filters ->
   stroke (onUserSelection filters (value d)) d = Some "#cccccc"
   /\ strokeWidth (onUserSelection filters (value d)) d = 3%Z
   /\ fill UNSELECTED_COLOR (onUserSelection filters (value d)) d = color d)
  /\ (value d ∈ filters ->
      stroke (onUserSelection filters (value d)) d = None
      /\ strokeWidth (onUserSelection filters (value d)) d = 0%Z).
Proof.
  assert (value d ∈ onUserSelection filters (value d) <-> value d ∉ filters) as Htoggle.
  { rewrite elem_of_onUserSelection. split; [by intros [[_ ?]|[? _]]|by left]. }
  split.
  - intros Hin%Htoggle. unfold stroke, strokeWidth, fill.
    rewrite (isEmpty_false _ _ Hin), (proj2 (includes_true _ _) Hin). done.
  - intros Hin. assert (value d ∉ onUserSelection filters (value d)) as Hout.
    { intros Hsel%Htoggle. done. }
    unfold stroke, strokeWidth. rewrite (proj2 (includes_false _ _) Hout).
    by rewrite andb_false_r.
Qed.

Lemma totalCount_from (data : list ClinicalDataCountWithColor) (sum : Z) :
  fold_left (fun sum obj => (sum + count obj)%Z) data sum = (sum + totalCount data)%Z.
Proof.
  unfold totalCount. revert sum. induction data as [|obj data IH]; intros sum; cbn [fold_left].
  - lia.
  - rewrite IH, (IH (0 + count obj)%Z). lia.
Qed.

(** X16: when no count is negative, every count lies between 0 and
    [totalCount], and [totalCount] is 0 only if every count is 0: the shares
    that the labels and the legend compute divide by zero for no other
    data. *)
Theorem totalCount_bounds (data : list ClinicalDataCountWithColor) :
  (forall obj, obj ∈ data -> (0 <= count obj)%Z) ->
  (forall obj, obj ∈ data -> (0 <= count obj <= totalCount data)%Z)
  /\ (totalCount data = 0%Z <-> forall obj, obj ∈ data -> count obj = 0%Z).
Proof.
  induction data as [|o data IH]; intros Hpos.
  - split; [by intros obj ?%elem_of_nil|]. split; [by intros _ obj ?%elem_of_nil|done].
  - assert (0 <= count o)%Z as Ho by (apply Hpos, elem_of_cons; by left).
    destruct IH as [IHbound IHzero].
    { intros obj Hin. apply Hpos, elem_of_cons. by right. }
    assert (totalCount (o :: data) = (count o + totalCount data)%Z) as ->.
    { unfold totalCount at 1. cbn [fold_left]. rewrite totalCount_from. lia. }
    assert (0 <= totalCount data)%Z as Hrest.
    { destruct data as [|o' data']; [done|].
      assert (0 <= count o' <= totalCount (o' :: data'))%Z; [|lia].
      apply IHbound, elem_of_cons. by left. }
    split.
    + intros obj [->|Hin]%elem_of_cons; [lia|].
      specialize (IHbound obj Hin). lia.
    + split.
      * intros Hzero obj [->|Hin]%elem_of_cons; [lia|].
        apply IHzero; [lia|done].
      * intros Hall. assert (count o = 0)%Z as -> by (apply Hall, elem_of_cons; by left).
        assert (totalCount data = 0)%Z as ->; [|done].
        apply IHzero. intros obj Hin. apply Hall, elem_of_cons. by right.
Qed.

End Facts.

Import PieChartExample.

Lemma totalCount_bounds_witness :
  (forall obj, obj ∈ slices -> (0 <= count obj)%Z)
  /\ (forall obj, obj ∈ slices -> (0 <= count obj <= totalCount slices)%Z).
Proof.
  assert (forall obj, obj ∈ slices -> (0 <= count obj)%Z) as H.
  { intros obj Hin. apply elem_of_cons in Hin. destruct Hin as [Heq|Hin].
    - rewrite Heq. vm_compute. discriminate.
    - apply list_elem_of_singleton in Hin. rewrite Hin. vm_compute. discriminate. }
  split; [exact H|].
  exact (proj1 (totalCount_bounds slices H)).
Defined.

End PieChartFacts.
